(** * kbase::Lazy<T> (kbase/lazy.h): a lazily created, once-initialised value

    The class template [Lazy<T>] owns a [std::unique_ptr<T> value_], a stored
    [Creator ctor_] and a [std::once_flag flag_].  [value()] runs
    [Initialize] through [std::call_once] and dereferences [value_];
    [value_created()] converts [value_] to [bool].

    The embedding below keeps the three data members as a record, models the
    free store as a finite map from addresses to objects of type [T], and
    threads the object, the rest of the program state and a log of the
    [Creator] invocations through a small state-and-exception monad.  A
    second part gives the member function [value()] an interleaving
    semantics, one atomic step per action on the shared members, to reason
    about several threads calling it at once. *)

From stdpp Require Import base option list gmap relations.

Set Default Proof Using "Type".

Module kbase.

(** Addresses of objects on the free store.  A raw pointer [T*] is either
    [nullptr] ([None]) or the address of an object. *)
Definition loc := positive.
Abbreviation ptr := (option loc).

Section lazy.
(** [T] is the template parameter, [E] whatever program state a [Creator]
    may capture besides the free store, [exn] the type of thrown values. *)
Context {T E exn : Type}.

Record World := MkWorld {
  heap : gmap loc T;
  env : E
}.

(** How a call of a C++ function ends: it returns, or it throws. *)
Inductive completion (A : Type) :=
| Returned (a : A)
| Raised (e : exn).
Global Arguments Returned {A} a.
Global Arguments Raised {A} e.

(** [typedef std::function<T*()> Creator;] -- a callable that may read and
    change the program state, and that returns a raw pointer or throws. *)
Definition Creator := World → completion ptr * World.

(** The states of a [std::once_flag]: no call has returned (and none is
    running), a call is running its callable, a call has returned. *)
Inductive once_flag := Idle | Active | Done.

(** The data members of [Lazy<T>], in declaration order. *)
Record Lazy := MkLazy {
  value_ : ptr;
  ctor_ : Creator;
  flag_ : once_flag
}.

Definition set_value_ (p : ptr) (o : Lazy) : Lazy :=
  {| value_ := p; ctor_ := ctor_ o; flag_ := flag_ o |}.

Definition set_flag_ (f : once_flag) (o : Lazy) : Lazy :=
  {| value_ := value_ o; ctor_ := ctor_ o; flag_ := f |}.

(** The state a member function runs in: the object itself ([*this]), the
    rest of the program, and the log of every invocation of [ctor_] with
    the way it ended (the log is instrumentation: no code reads it). *)
Record State := MkState {
  self : Lazy;
  world : World;
  invoked : list (completion ptr)
}.

Definition upd_self (f : Lazy → Lazy) (s : State) : State :=
  {| self := f (self s); world := world s; invoked := invoked s |}.

Definition upd_world (f : World → World) (s : State) : State :=
  {| self := self s; world := f (world s); invoked := invoked s |}.

(** ** The monad of member functions *)

(** A call returns a value, throws, has undefined behaviour (the only
    source here is [*p] on a null [p]), or never returns because it waits
    on a [once_flag] that nobody will release. *)
Inductive result (A : Type) :=
| Ok (a : A)
| Throw (e : exn)
| Undefined
| Blocked.
Global Arguments Ok {A} a.
Global Arguments Throw {A} e.
Global Arguments Undefined {A}.
Global Arguments Blocked {A}.

Definition M (A : Type) : Type := State → result A * State.

Definition ret {A} (a : A) : M A := λ s, (Ok a, s).

Definition bind {A B} (m : M A) (k : A → M B) : M B := λ s,
  match m s with
  | (Ok a, s') => k a s'
  | (Throw e, s') => (Throw e, s')
  | (Undefined, s') => (Undefined, s')
  | (Blocked, s') => (Blocked, s')
  end.

Local Notation "x <- m ;; k" := (bind m (λ x, k))
  (at level 100, m at next level, right associativity).

Definition gets {A} (f : State → A) : M A := λ s, (Ok (f s), s).
Definition modify (f : State → State) : M unit := λ s, (Ok (), f s).

(** ** [std::unique_ptr<T>] and raw pointers *)

(** The storage of the object at [l] is released: the object leaves the
    free store.  (The destructor of the object is not part of this; see
    [delete_ptr] below.) *)
Definition delete_obj (l : loc) : World → World := λ w,
  {| heap := delete l (heap w); env := env w |}.

(** [value_.reset(p)]: store [p], then delete what was owned before.  The
    only caller is [Initialize], which on every state reached from a new
    holder replaces an empty pointer; what [T::~T()] would do in the other
    branch is left out. *)
Definition reset (p : ptr) : M unit :=
  old <- gets (λ s, value_ (self s)) ;;
  _ <- modify (upd_self (set_value_ p)) ;;
  match old with
  | Some l => modify (upd_world (delete_obj l))
  | None => ret ()
  end.

(** [static_cast<bool>(p)] *)
Definition to_bool (p : ptr) : bool :=
  match p with Some _ => true | None => false end.

(** [*p]: a reference to the object at [p]; undefined for [nullptr]. *)
Definition deref (p : ptr) : M loc := λ s,
  match p with
  | Some l => (Ok l, s)
  | None => (Undefined, s)
  end.

(** ** Calling the stored [Creator] *)

Definition invoke (c : Creator) : M ptr := λ s,
  let '(r, w') := c (world s) in
  let s' := {| self := self s; world := w'; invoked := invoked s ++ [r] |} in
  match r with
  | Returned p => (Ok p, s')
  | Raised e => (Throw e, s')
  end.

(** ** [std::call_once(flag_, f)]

    A call on a flag that has completed returns at once.  A call on an idle
    flag runs [f]; when [f] returns the flag completes, when [f] throws the
    flag goes back to idle and the exception is rethrown to the caller.  A
    call that finds another call running waits for it; with a single thread
    of control nobody can finish that other call. *)
Definition call_once (f : M unit) : M unit := λ s,
  match flag_ (self s) with
  | Done => (Ok (), s)
  | Active => (Blocked, s)
  | Idle =>
      match f (upd_self (set_flag_ Active) s) with
      | (Ok _, s') => (Ok (), upd_self (set_flag_ Done) s')
      | (Throw e, s') => (Throw e, upd_self (set_flag_ Idle) s')
      | (Undefined, s') => (Undefined, s')
      | (Blocked, s') => (Blocked, s')
      end
  end.

(** ** The member functions of [Lazy<T>] *)

(** [void Initialize() { value_.reset(ctor_()); }] *)
Definition Initialize : M unit :=
  c <- gets (λ s, ctor_ (self s)) ;;
  p <- invoke c ;;
  reset p.

(** [T& value() { std::call_once(flag_, &Lazy::Initialize, this);
                  return *value_.get(); }] *)
Definition value : M loc :=
  _ <- call_once Initialize ;;
  p <- gets (λ s, value_ (self s)) ;;
  deref p.

(** [bool value_created() const { return static_cast<bool>(value_); }] *)
Definition value_created : M bool :=
  p <- gets (λ s, value_ (self s)) ;;
  ret (to_bool p).

(** ** Constructors *)

(** [explicit Lazy(Creator creator) : ctor_(creator) {}]; the other
    members are default-initialised: [value_] empty, [flag_] idle. *)
Definition Lazy_of (creator : Creator) : Lazy :=
  {| value_ := None; ctor_ := creator; flag_ := Idle |}.

(** The default constructor of [T], which may itself change the program
    state or throw. *)
Class DefaultConstructible := default_ctor : World → completion T * World.

(** The expression [new T()]: the object is built by the default
    constructor and placed at an address that holds no live object.  When
    the constructor throws, nothing is allocated. *)
Definition new_T `{DefaultConstructible} : Creator := λ w,
  match default_ctor w with
  | (Returned v, w1) =>
      let l := fresh (dom (heap w1)) in
      (Returned (Some l), {| heap := <[l := v]> (heap w1); env := env w1 |})
  | (Raised e, w1) => (Raised e, w1)
  end.

(** [Lazy() : ctor_([]() { return new T(); }) {}] *)
Definition Lazy_default `{DefaultConstructible} : Lazy := Lazy_of new_T.

(** A program that has just constructed its [Lazy] object. *)
Definition init (o : Lazy) (w : World) : State :=
  {| self := o; world := w; invoked := [] |}.

(** ** Sequences of calls on one object *)

(** What a single thread does with the object over its lifetime: it calls
    the two public member functions, and in between the rest of the program
    runs.  The data members are private, so code elsewhere changes only the
    world. *)
Inductive call :=
| CallValue
| CallValueCreated
| Elsewhere (f : World → World).

Inductive obs :=
| ObsValue (r : result loc)
| ObsCreated (r : result bool)
| ObsElsewhere.

Definition do_call (c : call) (s : State) : obs * State :=
  match c with
  | CallValue => let '(r, s') := value s in (ObsValue r, s')
  | CallValueCreated => let '(r, s') := value_created s in (ObsCreated r, s')
  | Elsewhere f => (ObsElsewhere, upd_world f s)
  end.

(** A call that throws hands control back to the caller, who may go on;
    after undefined behaviour, or a call that never returns, nothing
    follows. *)
Definition halts (o : obs) : bool :=
  match o with
  | ObsValue Undefined | ObsValue Blocked => true
  | _ => false
  end.

Fixpoint run (cs : list call) (s : State) : list obs * State :=
  match cs with
  | [] => ([], s)
  | c :: cs' =>
      let '(o, s') := do_call c s in
      if halts o then ([o], s')
      else let '(os, s'') := run cs' s' in (o :: os, s'')
  end.

(** The exceptions that calls of [value()] let escape, in order. *)
Fixpoint thrown (os : list obs) : list exn :=
  match os with
  | [] => []
  | ObsValue (Throw e) :: os' => e :: thrown os'
  | _ :: os' => thrown os'
  end.

Definition is_returned {A} (c : completion A) : bool :=
  match c with Returned _ => true | Raised _ => false end.

(** What calls observe once the value exists at [l]. *)
Definition settled (l : loc) (c : call) : obs :=
  match c with
  | CallValue => ObsValue (Ok l)
  | CallValueCreated => ObsCreated (Ok true)
  | Elsewhere _ => ObsElsewhere
  end.

(** ** Several threads inside [value()]

    Each thread that has called [value()] is at one of the points below.  A
    step of a thread is one action on the shared members: entering
    [std::call_once], evaluating [ctor_()], storing the pointer and leaving
    [std::call_once], or dereferencing [value_].  The actions are the ones
    the sequential member functions are made of. *)
Inductive pc :=
| AtCallOnce              (* about to execute [std::call_once] *)
| InCtor                  (* owns the flag, about to evaluate [ctor_()] *)
| InReset (p : ptr)       (* [ctor_()] gave [p], about to [value_.reset(p)] *)
| AtDeref                 (* [std::call_once] returned, about to [*value_.get()] *)
| Finished (r : result loc).

Definition thread_step (s : State) (t : pc) : option (State * pc) :=
  match t with
  | AtCallOnce =>
      match flag_ (self s) with
      | Idle => Some (upd_self (set_flag_ Active) s, InCtor)
      | Active => None
      | Done => Some (s, AtDeref)
      end
  | InCtor =>
      match invoke (ctor_ (self s)) s with
      | (Ok p, s') => Some (s', InReset p)
      | (Throw e, s') => Some (upd_self (set_flag_ Idle) s', Finished (Throw e))
      | (Undefined, s') => Some (s', Finished Undefined)
      | (Blocked, s') => Some (s', Finished Blocked)
      end
  | InReset p =>
      let '(_, s') := reset p s in
      Some (upd_self (set_flag_ Done) s', AtDeref)
  | AtDeref =>
      let '(r, s') := deref (value_ (self s)) s in
      Some (s', Finished r)
  | Finished _ => None
  end.

(** The shared state together with the threads, by thread number. *)
Definition Pool : Type := State * list pc.

Inductive step : relation Pool :=
| step_thread s ts i t s' t' :
    ts !! i = Some t →
    thread_step s t = Some (s', t') →
    step (s, ts) (s', <[i := t']> ts).

(** Running a schedule: the list names the thread that moves next. *)
Fixpoint exec (sched : list nat) (c : Pool) : option Pool :=
  match sched with
  | [] => Some c
  | i :: sched' =>
      match c.2 !! i with
      | Some t =>
          match thread_step c.1 t with
          | Some (s', t') => exec sched' (s', <[i := t']> c.2)
          | None => None
          end
      | None => None
      end
  end.

(** The steps a thread still has to take, at most; a thread about to enter
    [std::call_once] on an idle flag has two more, counted with the flag. *)
Definition pc_weight (t : pc) : nat :=
  match t with
  | AtCallOnce => 2
  | InCtor => 3
  | InReset _ => 2
  | AtDeref => 1
  | Finished _ => 0
  end.

Definition flag_weight (f : once_flag) : nat :=
  match f with Idle => 2 | _ => 0 end.

Definition weight (c : Pool) : nat :=
  flag_weight (flag_ (self c.1)) + sum_list (pc_weight <$> c.2).

(** ** The destructor *)

(** [delete p] for a non-null [p], as the destructor of [value_] does it:
    the destructor of [T] runs on the object at [p] and may change the
    program state, then the storage is released.  [dtor] is [T::~T()],
    supplied with [T].  Deleting an address that holds no live object is
    undefined. *)
Definition delete_ptr (dtor : T → World → World) (l : loc) : M unit := λ s,
  match heap (world s) !! l with
  | Some v => (Ok (), upd_world (λ w, delete_obj l (dtor v w)) s)
  | None => (Undefined, s)
  end.

(** [~Lazy() = default;] destroys the members in the reverse order of their
    declaration: [flag_], which does nothing; then [ctor_], that is the
    stored callable together with what it captured, whose effect on the
    program state is [drop_ctor], supplied with the callable; then
    [value_], which deletes the object it owns, if any. *)
Definition destroy_Lazy
    (drop_ctor : World → World) (dtor : T → World → World) : M unit :=
  _ <- modify (upd_world drop_ctor) ;;
  p <- gets (λ s, value_ (self s)) ;;
  match p with
  | Some l => delete_ptr dtor l
  | None => ret ()
  end.

(** What the rest of the program alone does to the world during the calls
    [cs]. *)
Fixpoint elsewhere_effect (cs : list call) (w : World) : World :=
  match cs with
  | [] => w
  | Elsewhere f :: cs' => elsewhere_effect cs' (f w)
  | _ :: cs' => elsewhere_effect cs' w
  end.

(** How [return *value_.get();] ends for a stored pointer [p]. *)
Definition outcome_of (p : ptr) : result loc :=
  match p with Some l => Ok l | None => Undefined end.

End lazy.

Global Arguments World : clear implicits.
Global Arguments Creator : clear implicits.
Global Arguments Lazy : clear implicits.
Global Arguments State : clear implicits.
Global Arguments completion : clear implicits.
Global Arguments result : clear implicits.
Global Arguments M : clear implicits.
Global Arguments call : clear implicits.
Global Arguments obs : clear implicits.
Global Arguments pc : clear implicits.
Global Arguments Pool : clear implicits.
Global Arguments DefaultConstructible : clear implicits.

(** ** What holds of the object between calls

    Between two calls made by a single thread the flag is never left
    running, and while no call has completed the pointer is still empty. *)
Definition consistent {T E exn} (F : Creator T E exn) (s : State T E exn) : Prop :=
  ctor_ (self s) = F ∧
  match flag_ (self s) with
  | Idle => value_ (self s) = None
  | Active => False
  | Done => True
  end.

(** The part of the log that a completed flag accounts for. *)
Definition completed_part {T E exn} (s : State T E exn) : list (completion exn ptr) :=
  match flag_ (self s) with
  | Done => [Returned (value_ (self s))]
  | _ => []
  end.

(** The factory has been called at most once by the end of the calls [cs]
    made on a new object. *)
Definition invoked_at_most_once {T E exn}
    (F : Creator T E exn) (w : World T E) (cs : list (call T E)) : Prop :=
  length (invoked (run cs (init (Lazy_of F) w)).2) ≤ 1.

Definition is_value_call {T E} (c : call T E) : bool :=
  match c with CallValue => true | _ => false end.

(** An observation that shows the value to exist: [value()] returned a
    reference, or [value_created()] answered true. *)
Definition shows_value {exn} (o : obs exn) : bool :=
  match o with
  | ObsValue (Ok _) | ObsCreated (Ok true) => true
  | _ => false
  end.

(** ** What holds while several threads construct the value

    [N] threads have called [value()] on a new holder whose factory [F],
    run in the state [w], returns the non-null pointer [l] and leaves the
    state [w1].  The shared state and the threads are then in one of four
    situations: nobody has entered [std::call_once]; one thread owns the
    flag and is about to call the factory; that thread has the factory's
    result and is about to store it; the value is stored and the flag
    completed. *)
Definition all_waiting_but {exn} (N i : nat) (t : pc exn) : list (pc exn) :=
  <[i := t]> (replicate N AtCallOnce).

Inductive construction_inv {T E exn} (F : Creator T E exn) (w : World T E)
    (l : loc) (w1 : World T E) (N : nat) : Pool T E exn → Prop :=
| inv_idle :
    construction_inv F w l w1 N
      (init (Lazy_of F) w, replicate N AtCallOnce)
| inv_in_ctor i :
    i < N →
    construction_inv F w l w1 N
      ({| self := {| value_ := None; ctor_ := F; flag_ := Active |};
          world := w; invoked := [] |},
       all_waiting_but N i InCtor)
| inv_in_reset i :
    i < N →
    construction_inv F w l w1 N
      ({| self := {| value_ := None; ctor_ := F; flag_ := Active |};
          world := w1; invoked := [Returned (Some l)] |},
       all_waiting_but N i (InReset (Some l)))
| inv_done ts :
    length ts = N →
    Forall (λ t, t = AtCallOnce ∨ t = AtDeref ∨ t = Finished (Ok l)) ts →
    construction_inv F w l w1 N
      ({| self := {| value_ := Some l; ctor_ := F; flag_ := Done |};
          world := w1; invoked := [Returned (Some l)] |},
       ts).

(** A thread that owns the flag and is constructing the value. *)
Definition runs_factory {exn} (t : pc exn) : bool :=
  match t with InCtor | InReset _ => true | _ => false end.

(** A thread for which [std::call_once] has returned. *)
Definition left_call_once {exn} (t : pc exn) : bool :=
  match t with AtDeref | Finished _ => true | _ => false end.

(** Whatever the factory does: while the flag is running exactly one
    thread is constructing, and otherwise none is. *)
Definition exclusive {T E exn} (c : Pool T E exn) : Prop :=
  match flag_ (self c.1) with
  | Active =>
      ∃ i t, c.2 !! i = Some t ∧ runs_factory t = true ∧
             ∀ j t', j ≠ i → c.2 !! j = Some t' → runs_factory t' = false
  | _ => ∀ j t', c.2 !! j = Some t' → runs_factory t' = false
  end.

(** The number of calls of [value()] among [cs]. *)
Definition value_calls {T E} (cs : list (call T E)) : nat :=
  length (filter (λ c, is_value_call c = true) cs).

(** ** What holds of several threads whatever the factory does

    A thread that has ended its call by throwing. *)
Definition threw {exn} (t : pc exn) : nat :=
  match t with Finished (Throw _) => 1 | _ => 0 end.

(** A thread that has gone through the factory, or past [std::call_once]
    without it. *)
Definition attempted {exn} (t : pc exn) : nat :=
  match t with
  | AtCallOnce | InCtor => 0
  | InReset _ | AtDeref | Finished _ => 1
  end.

Definition is_finished {exn} (t : pc exn) : bool :=
  match t with Finished _ => true | _ => false end.


Definition returned_part {exn} (log : list (completion exn ptr))
    : list (completion exn ptr) :=
  filter (λ x, is_returned x = true) log.

(** What the position of one thread says about the shared state. *)
Definition thread_ok {T E exn} (s : State T E exn) (t : pc exn) : Prop :=
  match t with
  | AtCallOnce => True
  | InCtor =>
      flag_ (self s) = Active ∧ value_ (self s) = None ∧
      returned_part (invoked s) = []
  | InReset p =>
      flag_ (self s) = Active ∧ value_ (self s) = None ∧
      returned_part (invoked s) = [Returned p]
  | AtDeref => flag_ (self s) = Done
  | Finished (Throw e) => Raised e ∈ invoked s
  | Finished r => flag_ (self s) = Done ∧ r = outcome_of (value_ (self s))
  end.

(** What the flag says about the pointer and the log. *)
Definition flag_ok {T E exn} (s : State T E exn) : Prop :=
  match flag_ (self s) with
  | Idle => value_ (self s) = None ∧ returned_part (invoked s) = []
  | Active => True
  | Done => returned_part (invoked s) = [Returned (value_ (self s))]
  end.

Definition pool_ok {T E exn} (c : Pool T E exn) : Prop :=
  exclusive c ∧ flag_ok c.1 ∧ Forall (thread_ok c.1) c.2 ∧
  length (invoked c.1) =
    sum_list (threw <$> c.2) + length (returned_part (invoked c.1)) ∧
  length (invoked c.1) ≤ sum_list (attempted <$> c.2).

(** C4 as it is stated, for the factory [F]: whenever [N] threads that
    called [value()] together on a new holder have all ended their calls,
    the factory has been invoked exactly once and every thread has
    received a reference to one and the same object. *)
Definition constructed_once_for_all {T E exn}
    (F : Creator T E exn) (w : World T E) (N : nat) : Prop :=
  ∀ k s ts,
    nsteps step k (init (Lazy_of F) w, replicate N AtCallOnce) (s, ts) →
    Forall (λ t, is_finished t = true) ts →
    length (invoked s) = 1 ∧ ∃ l, ts = replicate N (Finished (Ok l)).

(** ** Sample instances

    The type and the factories of the scenario in the specification: a
    counter that starts at zero.  The environment counts the calls made to
    the factory, so that a factory can fail on some calls and not on
    others. *)
Module sample.

Definition Counter : Type := nat.
Definition error : Type := nat.

Definition w0 : World Counter nat := {| heap := ∅; env := 0 |}.

(** [[]() { return new Counter{0}; }] *)
Definition make_counter : Creator Counter nat error := λ w,
  let l := fresh (dom (heap w)) in
  (Returned (Some l), {| heap := <[l := 0]> (heap w); env := S (env w) |}).

(** [[]() -> Counter* { throw 7; }] *)
Definition always_throws : Creator Counter nat error := λ w,
  (Raised 7, {| heap := heap w; env := S (env w) |}).

(** Throws on its first call and makes a counter on every later one. *)
Definition flaky : Creator Counter nat error := λ w,
  match env w with
  | 0 => always_throws w
  | S _ => make_counter w
  end.

(** [[]() -> Counter* { return nullptr; }] *)
Definition returns_null : Creator Counter nat error := λ w,
  (Returned None, w).

#[global] Instance Counter_default : DefaultConstructible Counter nat error :=
  λ w, (Returned 0, w).

(** Three threads call [value()] on a new holder of a counter. *)
Definition three_threads : Pool Counter nat error :=
  (init (Lazy_of make_counter) w0, replicate 3 AtCallOnce).

(** The shared state while the winning thread is about to run the factory,
    and once the counter is stored. *)
Definition building : State Counter nat error :=
  {| self := {| value_ := None; ctor_ := make_counter; flag_ := Active |};
     world := w0;
     invoked := [] |}.

Definition built : State Counter nat error :=
  {| self := {| value_ := Some 1%positive; ctor_ := make_counter; flag_ := Done |};
     world := (make_counter w0).2;
     invoked := [Returned (Some 1%positive)] |}.

(** Thread 1 wins the flag and constructs; the others follow. *)
Definition schedule : list nat := [1; 1; 1; 0; 2; 0; 1; 2].

(** Calls made on a holder of [flaky]. *)
Definition probe : list (call Counter nat) :=
  [CallValueCreated; CallValue; CallValueCreated; CallValue; CallValueCreated].

(** A default constructor of [Counter] that throws. *)
Definition Counter_throwing : DefaultConstructible Counter nat error :=
  λ w, (Raised 9, w).

(** A world in which a counter already lives at address 5. *)
Definition w5 : World Counter nat := {| heap := {[5%positive := 40]}; env := 0 |}.

(** A holder whose value exists, and three threads about to call
    [value()] on it. *)
Definition three_late_threads : Pool Counter nat error :=
  (built, replicate 3 AtCallOnce).

(** Three threads on a holder whose factory always throws, and a schedule
    in which each of them runs the factory in turn. *)
Definition three_unlucky_threads : Pool Counter nat error :=
  (init (Lazy_of always_throws) w0, replicate 3 AtCallOnce).

Definition unlucky_schedule : list nat := [2; 2; 0; 0; 1; 1].

(** The shared state once each of the three has seen the factory throw. *)
Definition all_failed : State Counter nat error :=
  {| self := Lazy_of always_throws;
     world := {| heap := ∅; env := 3 |};
     invoked := [Raised 7; Raised 7; Raised 7] |}.

Definition late_schedule : list nat := [0; 1; 0; 2; 2; 1].

(** A destructor of [Counter] that leaves a mark in the environment, one
    that leaves the program state alone, and the destruction of a callable
    whose capture leaves a mark of its own. *)
Definition marking_dtor : Counter → World Counter nat → World Counter nat :=
  λ _ w, {| heap := heap w; env := 99 |}.

Definition quiet_dtor : Counter → World Counter nat → World Counter nat :=
  λ _ w, w.

Definition drop_guard : World Counter nat → World Counter nat :=
  λ w, {| heap := heap w; env := 77 |}.


End sample.

(** * Properties *)

Section sequential.
Context {T E exn : Type}.
Implicit Types (s : State T E exn) (w : World T E) (c : call T E) (o : obs exn).
Implicit Types (F : Creator T E exn) (l : loc) (p : ptr).
Implicit Types (cs : list (call T E)) (os : list (obs exn)).

(** ** One call of [value()], by the state of the flag *)

Lemma value_Done s :
  flag_ (self s) = Done →
  value s = (match value_ (self s) with Some l => Ok l | None => Undefined end, s).
Proof.
  intros Hf. unfold value, bind, call_once, gets, deref. rewrite Hf.
  by destruct (value_ (self s)).
Qed.

Lemma value_Active s : flag_ (self s) = Active → value s = (Blocked, s).
Proof. intros Hf. unfold value, bind, call_once. by rewrite Hf. Qed.

Lemma value_Idle_raised s e w1 :
  flag_ (self s) = Idle →
  ctor_ (self s) (world s) = (Raised e, w1) →
  value s = (Throw e,
             {| self := self s; world := w1; invoked := invoked s ++ [Raised e] |}).
Proof.
  destruct s as [[v c f] w inv]; simpl; intros -> Hc.
  unfold value, bind, call_once, Initialize, bind, gets, invoke; simpl.
  by rewrite Hc.
Qed.

Lemma value_Idle_returned s p w1 :
  flag_ (self s) = Idle →
  ctor_ (self s) (world s) = (Returned p, w1) →
  value s =
    (match p with Some l => Ok l | None => Undefined end,
     {| self := {| value_ := p; ctor_ := ctor_ (self s); flag_ := Done |};
        world := match value_ (self s) with
                 | Some old => delete_obj old w1
                 | None => w1
                 end;
        invoked := invoked s ++ [Returned p] |}).
Proof.
  destruct s as [[v c f] w inv]; simpl; intros -> Hc.
  unfold value, bind, call_once, Initialize, bind, gets, invoke, reset, bind,
    gets, modify, ret, deref; simpl.
  rewrite Hc; simpl. by destruct v, p.
Qed.

Lemma value_created_eq s :
  value_created s = (Ok (to_bool (value_ (self s))), s).
Proof. reflexivity. Qed.

(** ** Sequences of calls *)

Lemma run_cons c cs s :
  run (c :: cs) s =
    let '(o, s') := do_call c s in
    if halts o then ([o], s')
    else let '(os, s'') := run cs s' in (o :: os, s'').
Proof. reflexivity. Qed.

(** Once the flag has completed, no call touches the members or the log. *)
Lemma do_call_Done c s :
  flag_ (self s) = Done →
  self (do_call c s).2 = self s ∧
  invoked (do_call c s).2 = invoked s ∧
  thrown [(do_call c s).1] = [].
Proof.
  intros Hf. destruct c; simpl; [|done..].
  rewrite value_Done by done. simpl. by destruct (value_ (self s)).
Qed.

Lemma run_Done cs s :
  flag_ (self s) = Done →
  self (run cs s).2 = self s ∧
  invoked (run cs s).2 = invoked s ∧
  thrown (run cs s).1 = [].
Proof.
  revert s. induction cs as [|c cs IH]; intros s Hf; [done|].
  rewrite run_cons.
  destruct (do_call_Done c s Hf) as (Hs & Hi & Ht).
  destruct (do_call c s) as [o s1] eqn:Hc; simpl in *.
  destruct (halts o); [done|].
  destruct (IH s1) as (Hs' & Hi' & Ht'); [by rewrite Hs|].
  destruct (run cs s1) as [os s2]; simpl in *.
  split_and!; [congruence..|].
  destruct o as [[]| |]; simpl in *; congruence.
Qed.

(** With the value present at [l], every call is answered from it. *)
Lemma run_settled cs s l :
  flag_ (self s) = Done →
  value_ (self s) = Some l →
  (run cs s).1 = settled l <$> cs.
Proof.
  revert s. induction cs as [|c cs IH]; intros s Hf Hv; [done|].
  rewrite run_cons.
  destruct (do_call_Done c s Hf) as (Hs & _ & _).
  assert ((do_call c s).1 = settled l c) as Ho.
  { destruct c; simpl; [|by rewrite Hv|done].
    rewrite value_Done by done. by rewrite Hv. }
  destruct (do_call c s) as [o s1]; simpl in *. subst o.
  replace (halts (settled l c)) with false by by destruct c.
  specialize (IH s1). rewrite Hs in IH. specialize (IH Hf Hv).
  destruct (run cs s1) as [os s2]; simpl in *. by subst.
Qed.

(** One call keeps the object consistent and extends the log by the
    exception it lets escape, or by the pointer it stored. *)
Lemma do_call_consistent F c s :
  consistent F s →
  consistent F (do_call c s).2 ∧
  invoked (do_call c s).2 ++ completed_part s =
    invoked s ++ (Raised <$> thrown [(do_call c s).1])
              ++ completed_part (do_call c s).2.
Proof.
  intros [HF Hinv]. destruct c; simpl.
  - destruct (flag_ (self s)) eqn:Hf; [|done|].
    + destruct (ctor_ (self s) (world s)) as [[p|e] w1] eqn:Hc.
      * rewrite (value_Idle_returned _ _ _ Hf Hc).
        unfold consistent, completed_part; simpl. rewrite Hf; simpl.
        split; [done|]. rewrite app_nil_r. by destruct p.
      * rewrite (value_Idle_raised _ _ _ Hf Hc).
        unfold consistent, completed_part; simpl. rewrite Hf; simpl.
        split; [done|]. by rewrite !app_nil_r.
    + rewrite value_Done by done. unfold consistent, completed_part; simpl.
      rewrite Hf. split; [done|]. by destruct (value_ (self s)).
  - unfold consistent, completed_part; simpl. split; [done|].
    by destruct (flag_ (self s)).
  - unfold consistent, completed_part; simpl. split; [done|].
    by destruct (flag_ (self s)).
Qed.

Lemma run_consistent F cs s :
  consistent F s →
  consistent F (run cs s).2 ∧
  invoked (run cs s).2 ++ completed_part s =
    invoked s ++ (Raised <$> thrown (run cs s).1)
              ++ completed_part (run cs s).2.
Proof.
  revert s. induction cs as [|c cs IH]; intros s Hs.
  { simpl. split; [done|]. done. }
  rewrite run_cons.
  destruct (do_call_consistent F c s Hs) as [Hs1 Hlog1].
  destruct (do_call c s) as [o s1] eqn:Hc; simpl in *.
  destruct (halts o) eqn:Hh; [done|].
  destruct (IH s1 Hs1) as [Hs2 Hlog2].
  destruct (flag_ (self s1)) eqn:Hf1.
  - (* the call did not complete the flag: the log grew by its exception *)
    assert (completed_part s1 = []) as H1 by (unfold completed_part; by rewrite Hf1).
    assert (completed_part s = []) as H0.
    { unfold completed_part. destruct (flag_ (self s)) eqn:Hf; [done|done|].
      destruct (do_call_Done c s Hf) as (Hself & _ & _).
      rewrite Hc in Hself; simpl in Hself. congruence. }
    rewrite H1, app_nil_r in Hlog1, Hlog2. rewrite H0, app_nil_r in Hlog1 |- *.
    destruct (run cs s1) as [os s2]; simpl in *.
    split; [done|]. rewrite Hlog2, Hlog1, <-!app_assoc. f_equal.
    rewrite app_assoc, <-fmap_app. do 2 f_equal.
    by destruct o as [[]| |].
  - by destruct Hs1 as [_ Hs1]; rewrite Hf1 in Hs1.
  - (* the flag is complete: the remaining calls add nothing *)
    destruct (run_Done cs s1 Hf1) as (Hself & Hinv & Hthr).
    destruct (run cs s1) as [os s2]; simpl in *.
    split; [done|].
    assert (completed_part s2 = completed_part s1) as ->.
    { unfold completed_part. by rewrite Hself. }
    rewrite Hinv, Hlog1, Hthr. by destruct o as [[]| |].
Qed.

Lemma init_consistent F w : consistent F (init (Lazy_of F) w).
Proof. done. Qed.

(** A call that returns a reference leaves the flag completed and the
    pointer at the referenced object, whatever the state before. *)
Lemma value_Ok_state s l :
  (value s).1 = Ok l →
  flag_ (self (value s).2) = Done ∧ value_ (self (value s).2) = Some l.
Proof.
  destruct (flag_ (self s)) eqn:Hf.
  - destruct (ctor_ (self s) (world s)) as [[p|e] w1] eqn:Hc.
    + rewrite (value_Idle_returned _ _ _ Hf Hc); simpl.
      destruct p; naive_solver.
    + by rewrite (value_Idle_raised _ _ _ Hf Hc).
  - by rewrite value_Active.
  - rewrite value_Done by done; simpl.
    destruct (value_ (self s)) eqn:Hv; naive_solver.
Qed.


Lemma filter_returned_raised (es : list exn) :
  filter (λ x : completion exn ptr, is_returned x = true) (Raised <$> es) = [].
Proof.
  induction es as [|e es IH]; [done|].
  rewrite fmap_cons, filter_cons_False; [done|]. simpl. congruence.
Qed.

(** An observation that shows the value leaves the flag completed and the
    pointer set. *)
Lemma do_call_shows_value F c s :
  consistent F s →
  shows_value (do_call c s).1 = true →
  flag_ (self (do_call c s).2) = Done ∧
  ∃ l, value_ (self (do_call c s).2) = Some l.
Proof.
  intros [_ Hinv] Hshow. destruct c; simpl in *; [| |done].
  - destruct (value s) as [r s1] eqn:Hv; simpl in *.
    destruct r as [l| | |]; try done.
    destruct (value_Ok_state s l) as [? ?]; [by rewrite Hv|].
    rewrite Hv in *; eauto.
  - destruct (value_ (self s)) as [l|] eqn:Hp; [|done].
    destruct (flag_ (self s)); [done|done|eauto].
Qed.

Lemma settled_created l (c : call T E) r :
  settled (exn:=exn) l c = ObsCreated r → r = Ok true.
Proof. destruct c; simpl; congruence. Qed.

(** After an observation that shows the value, [value_created()] answers
    true for good. *)
Lemma run_created_after F cs : ∀ s i j o r,
  consistent F s →
  i ≤ j →
  (run cs s).1 !! i = Some o →
  shows_value o = true →
  (run cs s).1 !! j = Some (ObsCreated r) →
  r = Ok true.
Proof.
  induction cs as [|c cs IH]; intros s i j o r Hs Hij Hi Hshow Hj; [done|].
  rewrite run_cons in Hi, Hj.
  pose proof (do_call_consistent F c s Hs) as [Hs1 _].
  pose proof (do_call_shows_value F c s Hs) as Hpres.
  destruct (do_call c s) as [o1 s1]; simpl in *.
  destruct (halts o1) eqn:Hh.
  { destruct i, j; simpl in *; by simplify_eq. }
  pose proof (IH s1) as IH1.
  pose proof (run_settled cs s1) as Hset.
  destruct (run cs s1) as [os s2]; simpl in *.
  destruct i as [|i], j as [|j]; simpl in *; simplify_eq;
    [by destruct r as [[]| | |]| |lia|].
  - destruct Hpres as (Hf & l & Hp); [done|].
    rewrite (Hset l Hf Hp), list_lookup_fmap in Hj.
    destruct (cs !! j) as [c'|]; simplify_eq/=. by eapply settled_created.
  - eapply (IH1 i j); eauto with lia.
Qed.

(** Until [value()] is called, [value_created()] answers false. *)
Lemma run_not_created cs : ∀ s j r,
  value_ (self s) = None →
  existsb is_value_call cs = false →
  (run cs s).1 !! j = Some (ObsCreated r) →
  r = Ok false.
Proof.
  induction cs as [|c cs IH]; intros s j r Hp Hcs Hj; [done|].
  simpl in Hcs. apply orb_false_iff in Hcs as [Hc Hcs].
  rewrite run_cons in Hj.
  assert (value_ (self (do_call c s).2) = None ∧ halts (do_call c s).1 = false ∧
          ∀ r', (do_call c s).1 = ObsCreated r' → r' = Ok false) as (Hp1 & Hh & Hb).
  { destruct c; simpl in *; [done| |done]. rewrite Hp. naive_solver. }
  destruct (do_call c s) as [o1 s1]; simpl in *. rewrite Hh in Hj.
  pose proof (IH s1) as IH1.
  destruct (run cs s1) as [os s2]; simpl in *.
  destruct j as [|j]; simpl in *; simplify_eq; eauto.
Qed.



(** ** The claims about one thread of control *)


(** C2, as stated, fails: a factory that throws is called again by the next
    [value()], so two calls of [value()] invoke it twice. *)
Lemma factory_invoked_twice :
  ¬ invoked_at_most_once sample.always_throws sample.w0 [CallValue; CallValue].
Proof. unfold invoked_at_most_once. vm_compute. lia. Qed.

(** C2, amended.  Over every sequence of [value()] and [value_created()]
    calls (and whatever the rest of the program does in between) the log of
    factory invocations consists of one failed invocation for each call of
    [value()] that threw, followed by at most one invocation that returned.
    So the factory returns at most once, it is invoked at most once more
    than it failed, and at most once when no invocation fails. *)
Theorem factory_returns_at_most_once F w cs :
  invoked (run cs (init (Lazy_of F) w)).2 =
    (Raised <$> thrown (run cs (init (Lazy_of F) w)).1)
      ++ completed_part (run cs (init (Lazy_of F) w)).2 ∧
  length (filter (λ x, is_returned x = true)
            (invoked (run cs (init (Lazy_of F) w)).2)) ≤ 1 ∧
  length (invoked (run cs (init (Lazy_of F) w)).2) ≤
    length (thrown (run cs (init (Lazy_of F) w)).1) + 1 ∧
  (thrown (run cs (init (Lazy_of F) w)).1 = [] →
   invoked_at_most_once F w cs).
Proof.
  destruct (run_consistent F cs _ (init_consistent F w)) as [_ Hlog].
  unfold invoked_at_most_once.
  change (completed_part (init (Lazy_of F) w)) with (@nil (completion exn ptr)) in Hlog.
  rewrite app_nil_r in Hlog. simpl in Hlog.
  destruct (run cs (init (Lazy_of F) w)) as [os s]; simpl in *.
  split; [done|]. rewrite Hlog.
  assert (length (completed_part s) ≤ 1) as Hc.
  { unfold completed_part. destruct (flag_ (self s)); simpl; lia. }
  split_and!.
  - rewrite filter_app, length_app.
    rewrite filter_returned_raised. simpl.
    etrans; [apply length_filter|done].
  - rewrite length_app, length_fmap. lia.
  - intros ->. simpl. done.
Qed.

(** C3. Once [value()] has returned a reference, every later call of
    [value()] returns a reference to the same address and [value_created()]
    answers true; none of these calls invokes the factory or changes the
    data members, whatever the rest of the program does in between. *)
Theorem value_idempotent s l cs :
  (value s).1 = Ok l →
  (run cs (value s).2).1 = settled l <$> cs ∧
  invoked (run cs (value s).2).2 = invoked (value s).2 ∧
  self (run cs (value s).2).2 = self (value s).2.
Proof.
  intros Hv. destruct (value_Ok_state s l Hv) as [Hf Hp].
  destruct (run_Done cs _ Hf) as (Hself & Hinv & _).
  split; [by apply run_settled|done].
Qed.

(** C5. On every holder [value_created()] answers false when nothing has
    been called, and in every sequence of calls it answers false as long as
    [value()] has not been called; once a call of [value()] has returned a
    reference (or [value_created()] has answered true) every later
    [value_created()] answers true; and once the pointer is set no later
    call changes the data members, so the value never becomes absent
    again. *)
Theorem value_created_lifecycle F w cs cs' i j o r :
  (value_created (init (Lazy_of F) w)).1 = Ok false ∧
  (existsb is_value_call cs = false →
   (run cs (init (Lazy_of F) w)).1 !! j = Some (ObsCreated r) →
   r = Ok false) ∧
  (i ≤ j →
   (run cs (init (Lazy_of F) w)).1 !! i = Some o →
   shows_value o = true →
   (run cs (init (Lazy_of F) w)).1 !! j = Some (ObsCreated r) →
   r = Ok true) ∧
  (value_ (self (run cs (init (Lazy_of F) w)).2) ≠ None →
   self (run cs' (run cs (init (Lazy_of F) w)).2).2 =
     self (run cs (init (Lazy_of F) w)).2 ∧
   (value_created (run cs' (run cs (init (Lazy_of F) w)).2).2).1 = Ok true).
Proof.
  split_and!.
  - done.
  - by apply run_not_created.
  - apply run_created_after with (F := F), init_consistent.
  - intros Hp.
    destruct (run_consistent F cs _ (init_consistent F w)) as [[_ Hinv] _].
    destruct (flag_ (self (run cs (init (Lazy_of F) w)).2)) eqn:Hf; [done|done|].
    destruct (run_Done cs' _ Hf) as (Hself & _ & _).
    split; [done|]. rewrite value_created_eq, Hself. simpl.
    by destruct (value_ (self (run cs (init (Lazy_of F) w)).2)).
Qed.

(** C6. A holder built by the default constructor creates its value with
    [new T()]: when the default constructor of [T] yields [v], the first
    call of [value()] returns a reference to a newly allocated object whose
    content is [v]. *)
Theorem default_factory_value `{!DefaultConstructible T E exn} w v w1 :
  default_ctor w = (Returned v, w1) →
  (value (init Lazy_default w)).1 = Ok (fresh (dom (heap w1))) ∧
  heap w1 !! fresh (dom (heap w1)) = None ∧
  heap (world (value (init Lazy_default w)).2) !! fresh (dom (heap w1)) = Some v ∧
  invoked (value (init Lazy_default w)).2 = [Returned (Some (fresh (dom (heap w1))))].
Proof.
  intros Hd.
  rewrite (value_Idle_returned _ (Some (fresh (dom (heap w1))))
             {| heap := <[fresh (dom (heap w1)) := v]> (heap w1); env := env w1 |});
    [|done|by simpl; unfold new_T; rewrite Hd].
  simpl. split_and!; [done| |by rewrite lookup_insert_eq|done].
  apply not_elem_of_dom, is_fresh.
Qed.

(** C7. When the factory throws [e] in the construction that a call of
    [value()] starts, that same call ends by throwing [e] itself, not an
    exception made from it; among several threads, the thread that runs the
    factory is the one whose call ends so. *)
Theorem factory_failure_propagates s e w1 :
  flag_ (self s) = Idle →
  ctor_ (self s) (world s) = (Raised e, w1) →
  (value s).1 = Throw e ∧
  ∃ s', thread_step (upd_self (set_flag_ Active) s) InCtor
        = Some (s', Finished (Throw e)).
Proof.
  intros Hf Hc. split; [by rewrite (value_Idle_raised _ _ _ Hf Hc)|].
  unfold thread_step, invoke; simpl. rewrite Hc. eauto.
Qed.

(** C9. When a call of [value()] ends with the factory's exception, the
    data members are as they were before the call, [value_created()] still
    answers false, and the next call of [value()] invokes the factory
    again, in whatever state the program then is. *)
Theorem factory_failure_retry F w cs e f :
  (value (run cs (init (Lazy_of F) w)).2).1 = Throw e →
  self (value (run cs (init (Lazy_of F) w)).2).2 =
    self (run cs (init (Lazy_of F) w)).2 ∧
  invoked (value (run cs (init (Lazy_of F) w)).2).2 =
    invoked (run cs (init (Lazy_of F) w)).2 ++ [Raised e] ∧
  (value_created (value (run cs (init (Lazy_of F) w)).2).2).1 = Ok false ∧
  invoked (value (upd_world f (value (run cs (init (Lazy_of F) w)).2).2)).2 =
    invoked (value (run cs (init (Lazy_of F) w)).2).2
      ++ [(F (f (world (value (run cs (init (Lazy_of F) w)).2).2))).1].
Proof.
  destruct (run_consistent F cs _ (init_consistent F w)) as [[HF Hinv] _].
  generalize dependent (run cs (init (Lazy_of F) w)).2. intros s HF Hinv Hthrow.
  destruct (flag_ (self s)) eqn:Hf; [|done|].
  - destruct (ctor_ (self s) (world s)) as [[p|e'] w1] eqn:Hc.
    { rewrite (value_Idle_returned _ _ _ Hf Hc) in Hthrow. by destruct p. }
    rewrite (value_Idle_raised _ _ _ Hf Hc) in Hthrow |- *.
    simpl in *. simplify_eq. split_and!; [done|done|by rewrite Hinv|].
    destruct (ctor_ (self s) (f w1)) as [[p|e'] w2] eqn:Hc2.
    + by rewrite (value_Idle_returned _ p w2).
    + by rewrite (value_Idle_raised _ e' w2).
  - rewrite value_Done in Hthrow by done. simpl in Hthrow.
    by destruct (value_ (self s)).
Qed.

(** C10. [value()] relies on the Creator returning a non-null pointer.  On
    a holder whose value has not been created, when the Creator returns the
    non-null pointer [l] and leaves the program in state [w1], [value()]
    returns a reference to [l], stores [l], and leaves the program in state
    [w1], so the reference designates the object as the Creator left it;
    when the Creator returns a null pointer, [value()] dereferences it. *)
Theorem creator_nonnull_precondition F w cs p w1 :
  flag_ (self (run cs (init (Lazy_of F) w)).2) = Idle →
  F (world (run cs (init (Lazy_of F) w)).2) = (Returned p, w1) →
  match p with
  | Some l =>
      value (run cs (init (Lazy_of F) w)).2 =
        (Ok l,
         {| self := {| value_ := Some l; ctor_ := F; flag_ := Done |};
            world := w1;
            invoked := invoked (run cs (init (Lazy_of F) w)).2
                         ++ [Returned (Some l)] |})
  | None => (value (run cs (init (Lazy_of F) w)).2).1 = Undefined
  end.
Proof.
  destruct (run_consistent F cs _ (init_consistent F w)) as [[HF Hinv] _].
  generalize dependent (run cs (init (Lazy_of F) w)).2. intros s HF Hinv Hf Hc.
  rewrite Hf in Hinv. rewrite <-HF in Hc.
  rewrite (value_Idle_returned _ _ _ Hf Hc), Hinv, HF.
  by destruct p.
Qed.

End sequential.

Section concurrent.
Context {T E exn : Type}.
Implicit Types (s : State T E exn) (w : World T E) (F : Creator T E exn).
Implicit Types (l : loc) (p : ptr) (t : pc exn) (ts : list (pc exn)).
Implicit Types (c : Pool T E exn).

(** ** Schedules and executions *)

Lemma exec_nsteps sched : ∀ c c',
  exec sched c = Some c' → nsteps step (length sched) c c'.
Proof.
  induction sched as [|i sched IH]; intros [s ts] c' Hex; simpl in *.
  { simplify_eq. constructor. }
  destruct (ts !! i) as [t|] eqn:Hi; [|done].
  destruct (thread_step s t) as [[s' t']|] eqn:Ht; [|done].
  eapply nsteps_l; [by eapply step_thread|by apply IH].
Qed.

(** ** Every step uses up one unit of weight *)

Lemma sum_weight_insert ts : ∀ i t t',
  ts !! i = Some t →
  sum_list (pc_weight <$> <[i := t']> ts) + pc_weight t =
    sum_list (pc_weight <$> ts) + pc_weight t'.
Proof.
  induction ts as [|t0 ts IH]; intros [|i] t t' Hi; simplify_eq/=; [lia|].
  specialize (IH i t t' Hi). lia.
Qed.

Lemma thread_step_weight s t s' t' :
  thread_step s t = Some (s', t') →
  flag_weight (flag_ (self s')) + pc_weight t' <
    flag_weight (flag_ (self s)) + pc_weight t.
Proof.
  destruct t as [| |p| |r]; simpl.
  - destruct (flag_ (self s)) eqn:Hf; intros; simplify_eq/=; [lia|].
    rewrite Hf; simpl; lia.
  - unfold invoke. destruct (ctor_ (self s) (world s)) as [[p|e] w1].
    all: intros; simplify_eq/=; lia.
  - unfold reset, bind, gets, modify, ret; simpl.
    destruct (value_ (self s)); intros; simplify_eq/=; lia.
  - destruct (value_ (self s)); intros; simplify_eq/=; lia.
  - done.
Qed.

Lemma step_weight c c' : step c c' → weight c' < weight c.
Proof.
  intros [s ts i t s' t' Hi Ht]. unfold weight; simpl.
  pose proof (thread_step_weight _ _ _ _ Ht).
  pose proof (sum_weight_insert ts i t t' Hi). lia.
Qed.

Lemma nsteps_weight k c c' : nsteps step k c c' → k + weight c' ≤ weight c.
Proof.
  induction 1 as [|k c c1 c' Hstep _ IH]; [lia|].
  apply step_weight in Hstep. lia.
Qed.

Lemma weight_fresh F w N :
  weight (init (Lazy_of F) w, replicate N (@AtCallOnce exn)) = 2 * N + 2.
Proof.
  unfold weight; simpl. rewrite fmap_replicate; simpl.
  induction N as [|N IH]; simpl in *; lia.
Qed.

(** ** The four situations are closed under steps *)

Lemma lookup_all_waiting_but N i t j t' :
  i < N →
  all_waiting_but N i t !! j = Some t' →
  (j = i ∧ t' = t) ∨ (j ≠ i ∧ j < N ∧ t' = AtCallOnce).
Proof.
  unfold all_waiting_but. intros Hi Hj.
  destruct (decide (j = i)) as [->|Hne].
  - rewrite list_lookup_insert_eq in Hj by by rewrite length_replicate.
    left. by simplify_eq.
  - rewrite list_lookup_insert_ne in Hj by done.
    apply lookup_replicate in Hj as [-> ?]. by right.
Qed.

Lemma construction_inv_step F w l w1 N c c' :
  F w = (Returned (Some l), w1) →
  construction_inv F w l w1 N c →
  step c c' →
  construction_inv F w l w1 N c'.
Proof.
  intros HF Hinv Hstep. revert Hinv.
  destruct Hstep as [s ts i t s' t' Hi Ht]. intros Hinv.
  inversion Hinv as [|i0 Hi0|i0 Hi0|ts0 Hlen Hall]; subst.
  - apply lookup_replicate in Hi as [-> Hi]. simpl in Ht. simplify_eq.
    by apply inv_in_ctor.
  - apply lookup_all_waiting_but in Hi as [[-> ->]|(_ & _ & ->)]; [|done|done].
    unfold thread_step, invoke in Ht; simpl in Ht. rewrite HF in Ht.
    simplify_eq. unfold all_waiting_but. rewrite list_insert_insert_eq.
    by apply inv_in_reset.
  - apply lookup_all_waiting_but in Hi as [[-> ->]|(_ & _ & ->)]; [|done|done].
    simpl in Ht. simplify_eq. unfold all_waiting_but.
    rewrite list_insert_insert_eq. apply inv_done.
    + by rewrite length_insert, length_replicate.
    + apply Forall_insert; [|by auto]. apply Forall_replicate. by left.
  - pose proof (Forall_lookup_1 _ _ _ _ Hall Hi) as [->|[->| ->]];
      simpl in Ht; simplify_eq.
    + apply inv_done; [by rewrite length_insert|].
      apply Forall_insert; auto.
    + apply inv_done; [by rewrite length_insert|].
      apply Forall_insert; auto.
Qed.

Lemma construction_inv_nsteps F w l w1 N k c :
  F w = (Returned (Some l), w1) →
  nsteps step k (init (Lazy_of F) w, replicate N AtCallOnce) c →
  construction_inv F w l w1 N c.
Proof.
  intros HF. revert c. induction k as [|k IH]; intros c Hsteps.
  - inversion Hsteps; subst. constructor.
  - apply nsteps_inv_r in Hsteps as (c1 & Hsteps & Hstep).
    eapply construction_inv_step; eauto.
Qed.

(** ** Unless every thread has its reference, some thread can move *)

Lemma some_unfinished l ts :
  Forall (λ t, t = AtCallOnce ∨ t = AtDeref ∨ t = Finished (Ok l)) ts →
  (∃ i t, ts !! i = Some t ∧ (t = AtCallOnce ∨ t = AtDeref)) ∨
  ts = replicate (length ts) (Finished (Ok l)).
Proof.
  induction 1 as [|t ts Ht _ IH]; [by right|].
  destruct Ht as [->|[->| ->]].
  - left. exists 0, AtCallOnce. auto.
  - left. exists 0, AtDeref. auto.
  - destruct IH as [(i & t & Hi & Ht)|IH].
    + left. exists (S i), t. auto.
    + right. simpl. by rewrite <-IH.
Qed.

Lemma construction_inv_progress F w l w1 N c :
  F w = (Returned (Some l), w1) →
  0 < N →
  construction_inv F w l w1 N c →
  (∃ c', step c c') ∨ c.2 = replicate N (Finished (Ok l)).
Proof.
  intros HF HN Hinv.
  inversion Hinv as [|i0 Hi0|i0 Hi0|ts0 Hlen Hall]; subst; simpl.
  - left. eexists. eapply (step_thread _ _ 0 AtCallOnce); [|done].
    by apply lookup_replicate.
  - left. eexists. eapply (step_thread _ _ i0 InCtor).
    + unfold all_waiting_but. apply list_lookup_insert_eq.
      by rewrite length_replicate.
    + unfold thread_step, invoke; simpl. by rewrite HF.
  - left. eexists. eapply (step_thread _ _ i0 (InReset (Some l))); [|done].
    unfold all_waiting_but. apply list_lookup_insert_eq.
    by rewrite length_replicate.
  - destruct (some_unfinished l ts0 Hall) as [(i & t & Hi & [->| ->])|Hfin].
    + left. eexists. by eapply (step_thread _ _ i AtCallOnce).
    + left. eexists. by eapply (step_thread _ _ i AtDeref).
    + by right.
Qed.

(** ** At most one thread constructs, whatever the factory does *)

Lemma thread_step_flag s t s' t' :
  thread_step s t = Some (s', t') →
  match t with
  | AtCallOnce =>
      (flag_ (self s) = Idle ∧ flag_ (self s') = Active ∧ t' = InCtor) ∨
      (flag_ (self s) = Done ∧ s' = s ∧ t' = AtDeref)
  | InCtor =>
      (flag_ (self s') = flag_ (self s) ∧ ∃ p, t' = InReset p) ∨
      (flag_ (self s') = Idle ∧ runs_factory t' = false)
  | InReset _ => flag_ (self s') = Done ∧ t' = AtDeref
  | AtDeref => flag_ (self s') = flag_ (self s) ∧ runs_factory t' = false
  | Finished _ => False
  end.
Proof.
  destruct t as [| |p| |r]; simpl.
  - destruct (flag_ (self s)) eqn:Hf; intros; simplify_eq/=; auto.
  - unfold invoke. destruct (ctor_ (self s) (world s)) as [[p|e] w1].
    all: intros; simplify_eq/=; eauto.
  - unfold reset, bind, gets, modify, ret; simpl.
    destruct (value_ (self s)); intros; by simplify_eq/=.
  - destruct (value_ (self s)); intros; by simplify_eq/=.
  - done.
Qed.

Lemma exclusive_step c c' : exclusive c → step c c' → exclusive c'.
Proof.
  intros Hex Hstep. revert Hex.
  destruct Hstep as [s ts i t s' t' Hi Ht]. unfold exclusive; simpl.
  intros Hexcl.
  pose proof (thread_step_flag _ _ _ _ Ht) as Hflag.
  pose proof (lookup_lt_Some _ _ _ Hi) as Hlt.
  assert (∀ j t0, j ≠ i → <[i:=t']> ts !! j = Some t0 → ts !! j = Some t0)
    as Hother by (intros j t0 ?; by rewrite list_lookup_insert_ne).
  assert (<[i:=t']> ts !! i = Some t') as Hsame
    by by apply list_lookup_insert_eq.
  (* when nobody else constructs, the thread that moved decides *)
  assert ((∀ j t0, j ≠ i → ts !! j = Some t0 → runs_factory t0 = false) →
          runs_factory t' = false →
          ∀ j t0, <[i:=t']> ts !! j = Some t0 → runs_factory t0 = false)
    as Hnone.
  { intros Hrest Hrun' j t0 Hj.
    destruct (decide (j = i)) as [->|Hne]; [by simplify_eq|eauto]. }
  assert ((∀ j t0, j ≠ i → ts !! j = Some t0 → runs_factory t0 = false) →
          runs_factory t' = true →
          ∃ i1 t1, <[i:=t']> ts !! i1 = Some t1 ∧ runs_factory t1 = true ∧
            ∀ j t0, j ≠ i1 → <[i:=t']> ts !! j = Some t0 →
                    runs_factory t0 = false)
    as Hone by (intros Hrest Hrun'; exists i, t'; eauto).
  (* what the hypothesis says about the threads other than the one moving *)
  assert (flag_ (self s) ≠ Active ∨ runs_factory t = true →
          ∀ j t0, j ≠ i → ts !! j = Some t0 → runs_factory t0 = false)
    as Hrest.
  { intros Hcase. destruct (flag_ (self s)) eqn:Hf; [by eauto| |by eauto].
    destruct Hexcl as (i0 & t0 & Hi0 & Hrun0 & Hrest).
    destruct Hcase as [?|Hrun]; [done|].
    destruct (decide (i = i0)) as [->|Hne]; [done|].
    rewrite (Hrest i t Hne Hi) in Hrun. done. }
  destruct t as [| |p| |r]; simpl in *.
  - destruct Hflag as [(Hf & Hf' & ->)|(Hf & -> & ->)].
    + rewrite Hf'. apply Hone; [|done]. apply Hrest. left. by rewrite Hf.
    + rewrite Hf. apply Hnone; [|done]. apply Hrest. left. by rewrite Hf.
  - assert (flag_ (self s) = Active) as Hf.
    { destruct (flag_ (self s)); [|done|]; by specialize (Hexcl i InCtor Hi). }
    specialize (Hrest (or_intror eq_refl)).
    destruct Hflag as [[Hf' [p ->]]|[Hf' Hrun']].
    + rewrite Hf', Hf. by apply Hone.
    + rewrite Hf'. by apply Hnone.
  - specialize (Hrest (or_intror eq_refl)).
    destruct Hflag as [Hf' ->]. rewrite Hf'. by apply Hnone.
  - destruct Hflag as [Hf' Hrun']. rewrite Hf'.
    destruct (flag_ (self s)) eqn:Hf.
    + apply Hnone; [apply Hrest; by left|done].
    + destruct Hexcl as (i0 & t0 & Hi0 & Hrun0 & Hrest0).
      assert (i0 ≠ i) as Hne by (intros ->; by simplify_eq).
      exists i0, t0. split; [by rewrite list_lookup_insert_ne|].
      split; [done|]. intros j t1 Hj Hj1.
      destruct (decide (j = i)) as [->|Hne']; [by simplify_eq|eauto].
    + apply Hnone; [apply Hrest; by left|done].
  - done.
Qed.

Lemma exclusive_nsteps F w N k c :
  nsteps step k (init (Lazy_of F) w, replicate N AtCallOnce) c →
  exclusive c ∧ length c.2 = N.
Proof.
  revert c. induction k as [|k IH]; intros c Hsteps.
  - inversion Hsteps; subst. unfold exclusive; simpl.
    split; [|by rewrite length_replicate].
    by intros j t' [-> _]%lookup_replicate.
  - apply nsteps_inv_r in Hsteps as (c1 & Hsteps & Hstep).
    destruct (IH c1 Hsteps) as [Hex Hlen].
    split; [by eapply exclusive_step|].
    destruct Hstep; simpl in *. by rewrite length_insert.
Qed.

(** ** One thread alone behaves as the member function *)

Lemma single_thread_value s :
  flag_ (self s) ≠ Active →
  ∃ sched,
    exec sched (s, [AtCallOnce]) = Some ((value s).2, [Finished (value s).1]).
Proof.
  intros Hf. destruct (flag_ (self s)) eqn:Hflag; [|done|].
  - destruct (ctor_ (self s) (world s)) as [[p|e] w1] eqn:Hc.
    + exists [0; 0; 0; 0].
      rewrite (value_Idle_returned _ _ _ Hflag Hc).
      destruct s as [[v c f] w inv]; simpl in *; subst f.
      unfold thread_step at 1. unfold invoke; simpl. rewrite Hc; simpl.
      unfold reset, bind, gets, modify, ret; simpl.
      by destruct v, p.
    + exists [0; 0].
      rewrite (value_Idle_raised _ _ _ Hflag Hc).
      destruct s as [[v c f] w inv]; simpl in *; subst f.
      unfold thread_step at 1. unfold invoke; simpl. by rewrite Hc.
  - exists [0; 0]. rewrite (value_Done _ Hflag). simpl. rewrite Hflag. simpl.
    by destruct (value_ (self s)).
Qed.

(** ** The claim about several threads *)

(** C4, amended.  [N > 0] threads call [value()] at the same time on a new
    holder.  Whatever the factory does, while a thread runs the factory or
    stores its result no other thread does, and a thread that reaches
    [std::call_once] cannot enter it.  When the factory returns the
    non-null pointer [l]: whatever the interleaving, after [k] steps [k] is
    at most [2 N + 2] and the factory has been invoked at most once;
    either some thread can take a step, or all [N] calls have returned a
    reference to [l], and then the shared state is the one that a single
    sequential call of [value()] on the new holder leaves, with the
    factory invoked exactly once; while the winning thread constructs,
    every other thread is still before [std::call_once]; and a thread for
    which [std::call_once] has returned finds the factory finished and its
    result stored, the state being again the one a single sequential call
    leaves, and it returns what [value()] returns in that state, a
    reference to [l]. *)
Theorem concurrent_single_construction F w N k s ts l w1 i j t t' :
  0 < N →
  nsteps step k (init (Lazy_of F) w, replicate N AtCallOnce) (s, ts) →
  length ts = N ∧
  (ts !! i = Some t → runs_factory t = true →
   thread_step s AtCallOnce = None ∧
   (j ≠ i → ts !! j = Some t' → runs_factory t' = false)) ∧
  (F w = (Returned (Some l), w1) →
   k ≤ 2 * N + 2 ∧
   length (invoked s) ≤ 1 ∧
   ((∃ c', step (s, ts) c') ∨
    (ts = replicate N (Finished (Ok l)) ∧
     value (init (Lazy_of F) w) = (Ok l, s) ∧
     invoked s = [Returned (Some l)] ∧ world s = w1 ∧
     value_ (self s) = Some l)) ∧
   (ts !! i = Some t → runs_factory t = true →
    j < N → j ≠ i → ts !! j = Some AtCallOnce) ∧
   (ts !! i = Some t → left_call_once t = true →
    value (init (Lazy_of F) w) = (Ok l, s) ∧
    value s = (Ok l, s) ∧
    invoked s = [Returned (Some l)] ∧ world s = w1 ∧
    value_ (self s) = Some l ∧ flag_ (self s) = Done ∧
    (t = AtDeref ∨ t = Finished (Ok l)))).
Proof.
  intros HN Hsteps.
  pose proof (nsteps_weight _ _ _ Hsteps) as Hw. rewrite weight_fresh in Hw.
  destruct (exclusive_nsteps _ _ _ _ _ Hsteps) as [Hex Hlen].
  unfold exclusive in Hex; simpl in *.
  split; [done|]. split.
  { intros Hi Hrun. destruct (flag_ (self s)) eqn:Hf.
    - by rewrite (Hex i t Hi) in Hrun.
    - destruct Hex as (i0 & t0 & Hi0 & Hrun0 & Hrest).
      split; [done|]. intros Hne Hj.
      destruct (decide (i = i0)) as [->|Hne0]; [by eauto|].
      by rewrite (Hrest i t Hne0 Hi) in Hrun.
    - by rewrite (Hex i t Hi) in Hrun. }
  clear Hex Hlen. intros HF. split; [lia|].
  (* what one sequential call does on the new holder *)
  pose proof (value_Idle_returned (init (Lazy_of F) w) (Some l) w1 eq_refl HF)
    as Hseq. simpl in Hseq.
  pose proof (construction_inv_nsteps _ _ _ _ _ _ _ HF Hsteps) as Hinv.
  pose proof (construction_inv_progress _ _ _ _ _ _ HF HN Hinv) as Hprog.
  inversion Hinv as [|i0 Hi0|i0 Hi0|ts0 Hlen Hall]; subst; simpl in *.
  - split_and!; [lia| | |].
    + destruct Hprog as [?|?]; [by left|]. destruct N; [lia|simplify_eq/=].
    + intros [-> _]%lookup_replicate. done.
    + intros [-> _]%lookup_replicate. done.
  - unfold all_waiting_but in *. split_and!; [lia| | |].
    + destruct Hprog as [?|Hfin]; [by left|].
      apply (f_equal (λ ts, ts !! i0)) in Hfin.
      rewrite list_lookup_insert_eq in Hfin by by rewrite length_replicate.
      symmetry in Hfin. by apply lookup_replicate in Hfin as [? _].
    + intros [[-> ->]|(_ & _ & ->)]%lookup_all_waiting_but; [|done..].
      intros _ Hj Hne.
      rewrite list_lookup_insert_ne by done. by apply lookup_replicate.
    + by intros [[-> ->]|(_ & _ & ->)]%lookup_all_waiting_but.
  - unfold all_waiting_but in *. split_and!; [lia| | |].
    + destruct Hprog as [?|Hfin]; [by left|].
      apply (f_equal (λ ts, ts !! i0)) in Hfin.
      rewrite list_lookup_insert_eq in Hfin by by rewrite length_replicate.
      symmetry in Hfin. by apply lookup_replicate in Hfin as [? _].
    + intros [[-> ->]|(_ & _ & ->)]%lookup_all_waiting_but; [|done..].
      intros _ Hj Hne.
      rewrite list_lookup_insert_ne by done. by apply lookup_replicate.
    + by intros [[-> ->]|(_ & _ & ->)]%lookup_all_waiting_but.
  - split_and!; [lia| | |].
    + destruct Hprog as [?|?]; [by left|by right].
    + intros Hi. by destruct (Forall_lookup_1 _ _ _ _ Hall Hi) as [->|[->| ->]].
    + intros Hi Hleft. split; [done|]. split; [by rewrite value_Done|].
      destruct (Forall_lookup_1 _ _ _ _ Hall Hi) as [->|[->| ->]]; auto 10.
      done.
Qed.

End concurrent.

(** * Further properties of the code *)

Section lifetime.
Context {T E exn : Type}.
Implicit Types (s : State T E exn) (w : World T E) (c : call T E) (o : obs exn).
Implicit Types (F : Creator T E exn) (l : loc) (p : ptr).
Implicit Types (cs : list (call T E)) (os : list (obs exn)).

(** ** Calls that do not construct *)

Lemma run_without_value cs : ∀ s,
  existsb is_value_call cs = false →
  (run cs s).2 =
    {| self := self s; world := elsewhere_effect cs (world s);
       invoked := invoked s |}.
Proof.
  induction cs as [|c cs IH]; intros s Hcs; [by destruct s|].
  simpl in Hcs. apply orb_false_iff in Hcs as [Hc Hcs].
  rewrite run_cons. destruct c as [| |f]; [done| |]; simpl.
  - specialize (IH s Hcs). by destruct (run cs s).
  - specialize (IH (upd_world f s) Hcs). by destruct (run cs (upd_world f s)).
Qed.

Lemma run_settled_world cs : ∀ s l,
  flag_ (self s) = Done →
  value_ (self s) = Some l →
  world (run cs s).2 = elsewhere_effect cs (world s).
Proof.
  induction cs as [|c cs IH]; intros s l Hf Hp; [done|].
  rewrite run_cons. destruct c as [| |f]; simpl.
  - rewrite value_Done by done. rewrite Hp. simpl.
    specialize (IH s l Hf Hp). by destruct (run cs s).
  - specialize (IH s l Hf Hp). by destruct (run cs s).
  - specialize (IH (upd_world f s) l Hf Hp).
    by destruct (run cs (upd_world f s)).
Qed.

(** What one call of [value()] adds to the log. *)
Lemma value_invoked s :
  invoked (value s).2 =
    invoked s ++ match flag_ (self s) with
                 | Idle => [(ctor_ (self s) (world s)).1]
                 | _ => []
                 end.
Proof.
  destruct (flag_ (self s)) eqn:Hf.
  - destruct (ctor_ (self s) (world s)) as [[p|e] w1] eqn:Hc.
    + by rewrite (value_Idle_returned _ _ _ Hf Hc).
    + by rewrite (value_Idle_raised _ _ _ Hf Hc).
  - rewrite value_Active by done. by rewrite app_nil_r.
  - rewrite value_Done by done. by rewrite app_nil_r.
Qed.

Lemma value_calls_cons c cs :
  value_calls (c :: cs) = (if is_value_call c then 1 else 0) + value_calls cs.
Proof.
  unfold value_calls. destruct c.
  - by rewrite filter_cons_True.
  - by rewrite filter_cons_False.
  - by rewrite filter_cons_False.
Qed.

Lemma run_invoked_bound cs : ∀ s,
  length (invoked (run cs s).2) ≤ length (invoked s) + value_calls cs.
Proof.
  induction cs as [|c cs IH]; intros s; [simpl; lia|].
  rewrite run_cons, value_calls_cons.
  destruct c as [| |f]; simpl.
  - pose proof (value_invoked s) as Hlog.
    destruct (value s) as [r s1]; simpl in *.
    assert (length (invoked s1) ≤ length (invoked s) + 1) as Hone.
    { rewrite Hlog, length_app. destruct (flag_ (self s)); simpl; lia. }
    specialize (IH s1).
    destruct r; simpl; try lia; destruct (run cs s1); simpl in *; lia.
  - specialize (IH s). destruct (run cs s); simpl in *. lia.
  - specialize (IH (upd_world f s)).
    destruct (run cs (upd_world f s)); simpl in *. lia.
Qed.

(** ** The properties *)

(** X1. A holder on which [value()] is never called never constructs its
    value: after any sequence of [value_created()] calls, with the rest of
    the program running in between, the factory has not been invoked, the
    members are as the constructor left them, and the world has changed
    only through the rest of the program.  Its destructor then destroys the
    stored callable and does nothing else: no destructor of [T] runs and
    nothing is deleted. *)
Theorem never_accessed_never_constructed F w cs drop_ctor dtor :
  existsb is_value_call cs = false →
  (run cs (init (Lazy_of F) w)).2 = init (Lazy_of F) (elsewhere_effect cs w) ∧
  destroy_Lazy drop_ctor dtor (run cs (init (Lazy_of F) w)).2 =
    (Ok (), init (Lazy_of F) (drop_ctor (elsewhere_effect cs w))).
Proof.
  intros Hcs. rewrite (run_without_value cs _ Hcs). done.
Qed.

(** X2. Once [value()] has returned a reference, no later call of
    [value()] or [value_created()] changes the program state: the world
    after any further calls is what the rest of the program alone made of
    it. *)
Theorem settled_calls_keep_world s l cs :
  (value s).1 = Ok l →
  world (run cs (value s).2).2 = elsewhere_effect cs (world (value s).2).
Proof.
  intros Hv. destruct (value_Ok_state s l Hv) as [Hf Hp].
  by eapply run_settled_world.
Qed.

(** X3. While the holder lives, [value()] never deletes an object: on every
    state reached from a new holder, the world after a call is the world
    the factory left when the call ran it, and the world before the call
    when it did not.  ([value_.reset] only ever replaces an empty
    pointer.) *)
Theorem value_never_deletes F w cs :
  world (value (run cs (init (Lazy_of F) w)).2).2 =
    match flag_ (self (run cs (init (Lazy_of F) w)).2) with
    | Idle => (F (world (run cs (init (Lazy_of F) w)).2)).2
    | _ => world (run cs (init (Lazy_of F) w)).2
    end.
Proof.
  destruct (run_consistent F cs _ (init_consistent F w)) as [[HF Hinv] _].
  generalize dependent (run cs (init (Lazy_of F) w)).2. intros s HF Hinv.
  destruct (flag_ (self s)) eqn:Hf; [|done|by rewrite value_Done].
  rewrite <-HF. destruct (ctor_ (self s) (world s)) as [[p|e] w1] eqn:Hc.
  - rewrite (value_Idle_returned _ _ _ Hf Hc). simpl. by rewrite Hinv.
  - by rewrite (value_Idle_raised _ _ _ Hf Hc).
Qed.

(** X4. A Creator that returns a null pointer is not called again: the
    call of [value()] that ran it leaves the flag completed and the
    pointer empty, so [value_created()] answers false and every later
    [value()] dereferences the null pointer again without invoking the
    Creator, whatever the rest of the program has done in between. *)
Theorem null_creator_no_retry F w cs w1 f :
  flag_ (self (run cs (init (Lazy_of F) w)).2) = Idle →
  F (world (run cs (init (Lazy_of F) w)).2) = (Returned None, w1) →
  (value (run cs (init (Lazy_of F) w)).2).1 = Undefined ∧
  flag_ (self (value (run cs (init (Lazy_of F) w)).2).2) = Done ∧
  (value_created (value (run cs (init (Lazy_of F) w)).2).2).1 = Ok false ∧
  value (upd_world f (value (run cs (init (Lazy_of F) w)).2).2) =
    (Undefined, upd_world f (value (run cs (init (Lazy_of F) w)).2).2).
Proof.
  destruct (run_consistent F cs _ (init_consistent F w)) as [[HF Hinv] _].
  generalize dependent (run cs (init (Lazy_of F) w)).2. intros s HF Hinv Hf Hc.
  rewrite <-HF in Hc. rewrite (value_Idle_returned _ _ _ Hf Hc). simpl.
  split_and!; [done..|]. by rewrite value_Done.
Qed.

(** X5. The holder owns what the Creator returned.  After [value()] has
    returned a reference to [l], the destructor destroys the stored
    callable, then runs the destructor of [T] on the object at [l] and
    releases its storage, and invokes nothing: when destroying the callable
    leaves the object [v] at [l], the world afterwards is what the
    destructor of [T] made of it, less the object at [l]; when no object
    lives at [l] any more, deleting it is undefined. *)
Theorem destroy_frees_held_object s l drop_ctor dtor :
  (value s).1 = Ok l →
  match heap (drop_ctor (world (value s).2)) !! l with
  | Some v =>
      destroy_Lazy drop_ctor dtor (value s).2 =
        (Ok (),
         {| self := self (value s).2;
            world := delete_obj l (dtor v (drop_ctor (world (value s).2)));
            invoked := invoked (value s).2 |}) ∧
      heap (world (destroy_Lazy drop_ctor dtor (value s).2).2) !! l = None
  | None => (destroy_Lazy drop_ctor dtor (value s).2).1 = Undefined
  end.
Proof.
  intros Hv. destruct (value_Ok_state s l Hv) as [_ Hp].
  unfold destroy_Lazy, bind, gets, modify, delete_ptr; simpl. rewrite Hp; simpl.
  destruct (heap (drop_ctor (world (value s).2)) !! l) as [v|] eqn:Hl;
    simpl; [|done].
  split; [done|]. apply lookup_delete_eq.
Qed.

(** X6. A default-constructed holder can leave nothing behind.  When the
    default constructor of [T] yields [v] and leaves the world [w1], the
    holder allocates one object for it; when destroying the stored
    callable and running the destructor of [T] on that object both leave
    the program state as it is, calling [value()] and then destroying the
    holder gives back exactly [w1]. *)
Theorem default_value_destroy_roundtrip `{!DefaultConstructible T E exn}
    w v w1 drop_ctor dtor :
  default_ctor w = (Returned v, w1) →
  drop_ctor (world (value (init Lazy_default w)).2) =
    world (value (init Lazy_default w)).2 →
  dtor v (world (value (init Lazy_default w)).2) =
    world (value (init Lazy_default w)).2 →
  destroy_Lazy drop_ctor dtor (value (init Lazy_default w)).2 =
    (Ok (), {| self := self (value (init Lazy_default w)).2;
               world := w1;
               invoked := invoked (value (init Lazy_default w)).2 |}).
Proof.
  intros Hd.
  rewrite (value_Idle_returned _ (Some (fresh (dom (heap w1))))
             {| heap := <[fresh (dom (heap w1)) := v]> (heap w1); env := env w1 |});
    [|done|by simpl; unfold new_T; rewrite Hd].
  simpl. intros Hdrop Hdtor.
  unfold destroy_Lazy, bind, gets, modify, delete_ptr, upd_world; simpl.
  rewrite Hdrop; simpl. rewrite lookup_insert_eq, Hdtor.
  unfold delete_obj; simpl.
  rewrite delete_insert_eq, delete_id by apply not_elem_of_dom, is_fresh.
  by destruct w1.
Qed.

(** X7. When the default constructor of [T] throws [e], the first
    [value()] of a default-constructed holder throws [e]; nothing has been
    allocated (the world is as the constructor left it) and the holder is
    as new, so that a later call tries again. *)
Theorem default_constructor_failure `{!DefaultConstructible T E exn} w e w1 :
  default_ctor w = (Raised e, w1) →
  value (init Lazy_default w) =
    (Throw e, {| self := Lazy_default; world := w1; invoked := [Raised e] |}).
Proof.
  intros Hd. rewrite (value_Idle_raised _ e w1); [done|done|].
  simpl. unfold new_T. by rewrite Hd.
Qed.

(** X8. A call of [value()] invokes the factory exactly when the flag has
    not completed, and then once; so after any sequence of calls on a new
    holder the factory has been invoked at most as often as [value()] has
    been called. *)
Theorem factory_invoked_per_call F w cs s :
  invoked (value s).2 =
    invoked s ++ match flag_ (self s) with
                 | Idle => [(ctor_ (self s) (world s)).1]
                 | _ => []
                 end ∧
  length (invoked (run cs (init (Lazy_of F) w)).2) ≤ value_calls cs.
Proof.
  split; [apply value_invoked|]. apply (run_invoked_bound cs (init (Lazy_of F) w)).
Qed.

End lifetime.

Section any_factory.
Context {T E exn : Type}.
Implicit Types (s : State T E exn) (w : World T E) (F : Creator T E exn).
Implicit Types (l : loc) (p : ptr) (t : pc exn) (ts : list (pc exn)).
Implicit Types (c : Pool T E exn).

(** ** The steps of a thread, one by one *)

Lemma thread_step_cases s t s' t' :
  thread_step s t = Some (s', t') →
  (t = AtCallOnce ∧ flag_ (self s) = Idle ∧
   s' = upd_self (set_flag_ Active) s ∧ t' = InCtor) ∨
  (t = AtCallOnce ∧ flag_ (self s) = Done ∧ s' = s ∧ t' = AtDeref) ∨
  (t = InCtor ∧ ∃ p w1,
     ctor_ (self s) (world s) = (Returned p, w1) ∧
     s' = {| self := self s; world := w1;
             invoked := invoked s ++ [Returned p] |} ∧
     t' = InReset p) ∨
  (t = InCtor ∧ ∃ e w1,
     ctor_ (self s) (world s) = (Raised e, w1) ∧
     s' = {| self := set_flag_ Idle (self s); world := w1;
             invoked := invoked s ++ [Raised e] |} ∧
     t' = Finished (Throw e)) ∨
  (∃ p, t = InReset p ∧
     s' = upd_self (set_flag_ Done) (reset p s).2 ∧ t' = AtDeref) ∨
  (t = AtDeref ∧ s' = s ∧ t' = Finished (outcome_of (value_ (self s)))).
Proof.
  destruct t as [| |p| |r]; simpl.
  - destruct (flag_ (self s)) eqn:Hf; intros; simplify_eq;
      [by left|by right; left].
  - unfold invoke. destruct (ctor_ (self s) (world s)) as [[p|e] w1] eqn:Hc.
    + intros; simplify_eq. do 2 right. left. split; [done|]. by exists p, w1.
    + intros; simplify_eq. do 3 right. left. split; [done|]. by exists e, w1.
  - destruct (reset p s) as [r s1] eqn:Hr. intros; simplify_eq.
    do 4 right. left. exists p. by rewrite Hr.
  - unfold deref, outcome_of. destruct (value_ (self s));
      intros; simplify_eq; by do 5 right.
  - done.
Qed.

Lemma sum_insert (f : pc exn → nat) ts : ∀ i t t',
  ts !! i = Some t →
  sum_list (f <$> <[i := t']> ts) + f t = sum_list (f <$> ts) + f t'.
Proof.
  induction ts as [|t0 ts IH]; intros [|i] t t' Hi; simplify_eq/=; [lia|].
  specialize (IH i t t' Hi). lia.
Qed.

Lemma sum_attempted_le ts : sum_list (attempted <$> ts) ≤ length ts.
Proof.
  induction ts as [|t ts IH]; [simpl; lia|].
  rewrite fmap_cons. destruct t; simpl in *; lia.
Qed.

Lemma returned_part_snoc (log : list (completion exn ptr)) x :
  returned_part (log ++ [x]) =
    returned_part log ++ (if is_returned x then [x] else []).
Proof.
  unfold returned_part. rewrite filter_app. f_equal.
  destruct x; simpl.
  - by rewrite filter_cons_True.
  - by rewrite filter_cons_False.
Qed.

(** What a thread that does not construct knows stays true when another
    thread moves. *)
Lemma thread_ok_frame s s' t :
  thread_ok s t →
  runs_factory t = false →
  (flag_ (self s) = Done → s' = s) →
  (∀ x, x ∈ invoked s → x ∈ invoked s') →
  thread_ok s' t.
Proof.
  intros Hok Hrun Hdone Hlog.
  destruct t as [| |p| |[l|e| |]]; simpl in *; try done.
  - by rewrite (Hdone Hok).
  - destruct Hok as [Hf ->]. by rewrite (Hdone Hf).
  - by apply Hlog.
  - destruct Hok as [Hf Heq]. by rewrite (Hdone Hf).
  - destruct Hok as [Hf Heq]. by rewrite (Hdone Hf).
Qed.

(** When a thread moves, none of the others is constructing. *)
Lemma others_do_not_construct s ts i t s' t' :
  exclusive (s, ts) →
  Forall (thread_ok s) ts →
  ts !! i = Some t →
  thread_step s t = Some (s', t') →
  ∀ j tj, j ≠ i → ts !! j = Some tj → runs_factory tj = false.
Proof.
  unfold exclusive; simpl. intros Hex Hall Hi Ht j tj Hne Hj.
  pose proof (Forall_lookup_1 _ _ _ _ Hall Hi) as Hok.
  destruct (flag_ (self s)) eqn:Hf; [by eauto| |by eauto].
  destruct Hex as (i0 & t0 & Hi0 & Hrun0 & Hrest).
  destruct (decide (i = i0)) as [->|Hne0]; [by eauto|].
  (* the flag is running and another thread owns it: this one cannot move *)
  destruct t as [| |p| |r]; simpl in *.
  - by rewrite Hf in Ht.
  - by pose proof (Hrest i InCtor Hne0 Hi).
  - by pose proof (Hrest i (InReset p) Hne0 Hi).
  - congruence.
  - done.
Qed.

(** ** The invariant *)

Lemma reset_empty s p :
  value_ (self s) = None → (reset p s).2 = upd_self (set_value_ p) s.
Proof.
  intros Hv. unfold reset, bind, gets, modify, ret; simpl. by rewrite Hv.
Qed.

Lemma pool_ok_step c c' : pool_ok c → step c c' → pool_ok c'.
Proof.
  intros Hok Hstep.
  pose proof (exclusive_step _ _ (proj1 Hok) Hstep) as Hex'.
  revert Hok Hex'. destruct Hstep as [s ts i t s' t' Hi Ht].
  unfold pool_ok; simpl. intros (Hex & Hflag & Hall & Hcount & Hatt) Hex'.
  pose proof (Forall_lookup_1 _ _ _ _ Hall Hi) as Hti.
  pose proof (others_do_not_construct _ _ _ _ _ _ Hex Hall Hi Ht) as Hothers.
  pose proof (sum_insert threw ts i t t' Hi) as Hthrew.
  pose proof (sum_insert attempted ts i t t' Hi) as Hattempted.
  assert (thread_ok s' t' →
          (flag_ (self s) = Done → s' = s) →
          (∀ x, x ∈ invoked s → x ∈ invoked s') →
          Forall (thread_ok s') (<[i:=t']> ts)) as Hforall.
  { intros Ht' Hdone Hlog. apply Forall_lookup_2. intros j tj Hj.
    destruct (decide (j = i)) as [->|Hne].
    - rewrite list_lookup_insert_eq in Hj by by eapply lookup_lt_Some.
      by simplify_eq.
    - rewrite list_lookup_insert_ne in Hj by done.
      eapply thread_ok_frame; eauto. by eapply Forall_lookup_1. }
  split; [done|]. unfold flag_ok in *.
  destruct (thread_step_cases _ _ _ _ Ht)
    as [(-> & Hf & -> & ->)|[(-> & Hf & -> & ->)|[(-> & p & w1 & Hc & -> & ->)|
        [(-> & e & w1 & Hc & -> & ->)|[(p & -> & -> & ->)|(-> & -> & ->)]]]]];
    simpl in *.
  - (* entering [std::call_once] on an idle flag *)
    rewrite Hf in Hflag. destruct Hflag as [Hv Hr].
    split_and!; try done; try lia.
    apply Hforall; [done|congruence|done].
  - (* passing a completed flag *)
    split_and!; try done; try lia.
    apply Hforall; done.
  - (* the factory returns *)
    destruct Hti as (Hf & Hv & Hr).
    rewrite returned_part_snoc, Hr, length_app; simpl.
    rewrite Hr in Hcount; simpl in Hcount. rewrite Hf.
    split_and!; try done; try lia.
    apply Hforall; [|congruence|set_solver].
    simpl. by rewrite returned_part_snoc, Hr.
  - (* the factory throws *)
    destruct Hti as (Hf & Hv & Hr).
    rewrite returned_part_snoc, Hr, length_app; simpl.
    rewrite Hr in Hcount; simpl in Hcount.
    split_and!; try done; try lia.
    apply Hforall; [|congruence|set_solver].
    simpl. set_solver.
  - (* the result of the factory is stored *)
    destruct Hti as (Hf & Hv & Hr).
    rewrite !(reset_empty _ _ Hv) in Hforall |- *. simpl in *.
    split_and!; try done; try lia.
    apply Hforall; [done|congruence|done].
  - (* the stored pointer is dereferenced *)
    assert (threw (Finished (outcome_of (value_ (self s))) : pc exn) = 0) as Hzero
      by by destruct (value_ (self s)).
    simpl in Hzero. rewrite Hzero in Hthrew.
    split_and!; try done; try lia.
    apply Hforall; [|done..].
    simpl. destruct (value_ (self s)); by simpl.
Qed.

Lemma pool_ok_nsteps F w N k c :
  nsteps step k (init (Lazy_of F) w, replicate N AtCallOnce) c →
  pool_ok c.
Proof.
  revert c. induction k as [|k IH]; intros c Hsteps.
  - inversion Hsteps; subst. unfold pool_ok, exclusive, flag_ok; simpl.
    split_and!; try done; try lia.
    + by intros j t' [-> _]%lookup_replicate.
    + by apply Forall_replicate.
    + rewrite fmap_replicate. simpl. clear Hsteps.
      induction N as [|N IH]; simpl; lia.
  - apply nsteps_inv_r in Hsteps as (c1 & Hsteps & Hstep).
    eapply pool_ok_step; eauto.
Qed.

(** ** Threads that can move *)


Lemma weight_settled s N :
  flag_ (self s) = Done →
  weight (s, replicate N (@AtCallOnce exn)) = 2 * N.
Proof.
  intros Hf. unfold weight; simpl. rewrite Hf, fmap_replicate; simpl.
  induction N as [|N IH]; simpl in *; lia.
Qed.

Lemma settled_pool_nsteps s l N k c :
  flag_ (self s) = Done →
  value_ (self s) = Some l →
  nsteps step k (s, replicate N AtCallOnce) c →
  c.1 = s ∧
  Forall (λ t, t = AtCallOnce ∨ t = AtDeref ∨ t = Finished (Ok l)) c.2.
Proof.
  intros Hf Hp. revert c. induction k as [|k IH]; intros c Hsteps.
  - inversion Hsteps; subst. split; [done|]. apply Forall_replicate. by left.
  - apply nsteps_inv_r in Hsteps as (c1 & Hsteps & Hstep).
    destruct (IH c1 Hsteps) as [Hs Hall]. clear IH Hsteps.
    destruct Hstep as [s1 ts i t s' t' Hi Ht]; simpl in *; subst s1.
    destruct (Forall_lookup_1 _ _ _ _ Hall Hi) as [->|[->| ->]]; simpl in Ht.
    + rewrite Hf in Ht. simplify_eq. split; [done|]. apply Forall_insert; auto.
    + rewrite Hp in Ht. simplify_eq/=. split; [done|].
      apply Forall_insert; auto.
    + done.
Qed.

(** ** The properties *)


(** X10. Whatever the factory does, all the calls made at the same time
    that do not throw end alike: each returns a reference to the one
    pointer that the holder stores (or each dereferences the stored null
    pointer), and that pointer is what the single returning invocation of
    the factory gave.  A call that throws [e] does so because an
    invocation of the factory threw [e]. *)
Theorem concurrent_calls_agree F w N k s ts i j r r' e :
  nsteps step k (init (Lazy_of F) w, replicate N AtCallOnce) (s, ts) →
  (ts !! i = Some (Finished r) → threw (Finished r) = 0 →
   ts !! j = Some (Finished r') → threw (Finished r') = 0 →
   r = r' ∧ r = outcome_of (value_ (self s)) ∧
   returned_part (invoked s) = [Returned (value_ (self s))]) ∧
  (ts !! i = Some (Finished (Throw e)) → Raised e ∈ invoked s).
Proof.
  intros Hsteps.
  destruct (pool_ok_nsteps _ _ _ _ _ Hsteps) as (_ & Hflag & Hall & _).
  simpl in *. split.
  - intros Hi Hr Hj Hr'.
    pose proof (Forall_lookup_1 _ _ _ _ Hall Hi) as Hoki.
    pose proof (Forall_lookup_1 _ _ _ _ Hall Hj) as Hokj.
    assert (∀ r0, thread_ok s (Finished r0) → threw (Finished r0 : pc exn) = 0 →
                  flag_ (self s) = Done ∧ r0 = outcome_of (value_ (self s)))
      as Hsame by (intros [| | |]; simpl; done).
    destruct (Hsame r Hoki Hr) as [Hf ->].
    destruct (Hsame r' Hokj Hr') as [_ ->].
    unfold flag_ok in Hflag. rewrite Hf in Hflag. done.
  - intros Hi. apply (Forall_lookup_1 _ _ _ _ Hall Hi).
Qed.

(** X11. Whatever the factory does, [N] calls made at the same time invoke
    it at most [N] times: once for every call that has ended by throwing,
    and at most once more, for the one invocation that returned. *)
Theorem concurrent_invocation_count F w N k s ts :
  nsteps step k (init (Lazy_of F) w, replicate N AtCallOnce) (s, ts) →
  length (returned_part (invoked s)) ≤ 1 ∧
  length (invoked s) =
    sum_list (threw <$> ts) + length (returned_part (invoked s)) ∧
  length (invoked s) ≤ N.
Proof.
  intros Hsteps.
  destruct (pool_ok_nsteps _ _ _ _ _ Hsteps) as (Hex & Hflag & Hall & Hcount & Hatt).
  destruct (exclusive_nsteps _ _ _ _ _ Hsteps) as [_ Hlen].
  simpl in *. split_and!; [|done|].
  - unfold flag_ok in Hflag. unfold exclusive in Hex; simpl in Hex.
    destruct (flag_ (self s)).
    + destruct Hflag as [_ ->]. simpl; lia.
    + destruct Hex as (i0 & t0 & Hi0 & Hrun0 & _).
      pose proof (Forall_lookup_1 _ _ _ _ Hall Hi0) as Hok.
      destruct t0 as [| |p| |r]; try done; simpl in Hok.
      * destruct Hok as (_ & _ & ->). simpl; lia.
      * destruct Hok as (_ & _ & ->). simpl; lia.
    + rewrite Hflag. simpl; lia.
  - pose proof (sum_attempted_le ts). lia.
Qed.

(** X12. On a holder whose value exists, calls of [value()] made at the
    same time never wait and never change the shared state: after any
    number of steps of [N] threads the holder and the world are as they
    were, at most [2 N] steps have been taken, and every thread either has
    returned a reference to the stored address or can take its next step
    at once. *)
Theorem settled_threads_never_wait s l N k s' ts i t :
  flag_ (self s) = Done →
  value_ (self s) = Some l →
  nsteps step k (s, replicate N AtCallOnce) (s', ts) →
  s' = s ∧
  k ≤ 2 * N ∧
  (ts !! i = Some t →
   t = Finished (Ok l) ∨ ∃ t', thread_step s' t = Some (s', t')).
Proof.
  intros Hf Hp Hsteps.
  pose proof (nsteps_weight _ _ _ Hsteps) as Hw.
  rewrite weight_settled in Hw by done.
  destruct (settled_pool_nsteps _ _ _ _ _ Hf Hp Hsteps) as [Hs Hall].
  simpl in *. subst s'. split_and!; [done|lia|].
  intros Hi. destruct (Forall_lookup_1 _ _ _ _ Hall Hi) as [->|[->| ->]].
  - right. exists AtDeref. simpl. by rewrite Hf.
  - right. exists (Finished (Ok l)). simpl. by rewrite Hp.
  - by left.
Qed.

End any_factory.

(** ** The theorems at the sample instances *)


Lemma factory_returns_at_most_once_witness :
  invoked_at_most_once sample.make_counter sample.w0 [CallValue; CallValue].
Proof.
  apply (factory_returns_at_most_once sample.make_counter sample.w0
           [CallValue; CallValue]).
  reflexivity.
Defined.

Lemma value_idempotent_witness :
  (run [CallValue; CallValueCreated; Elsewhere (λ w, w); CallValue]
     (value (init (Lazy_of sample.make_counter) sample.w0)).2).1 =
    [ObsValue (Ok 1%positive); ObsCreated (Ok true); ObsElsewhere;
     ObsValue (Ok 1%positive)] ∧
  length (invoked
    (run [CallValue; CallValueCreated; Elsewhere (λ w, w); CallValue]
       (value (init (Lazy_of sample.make_counter) sample.w0)).2).2) = 1.
Proof.
  destruct (value_idempotent (init (Lazy_of sample.make_counter) sample.w0)
              1%positive
              [CallValue; CallValueCreated; Elsewhere (λ w, w); CallValue])
    as (Hobs & Hinv & _); [reflexivity|].
  split; [exact Hobs|]. rewrite Hinv. reflexivity.
Defined.

(** C4, as stated, fails: three threads call [value()] together on a new
    holder whose factory throws.  Each of them runs the factory in turn, so
    that it is invoked three times, and every call ends with the exception:
    no thread receives a reference. *)
Lemma concurrent_factory_invoked_thrice :
  ¬ constructed_once_for_all sample.always_throws sample.w0 3.
Proof.
  intros Hclaim.
  assert (nsteps step 6 sample.three_unlucky_threads
            (sample.all_failed, replicate 3 (Finished (Throw 7)))) as Hrun.
  { apply (exec_nsteps sample.unlucky_schedule). reflexivity. }
  destruct (Hclaim 6 _ _ Hrun) as [Hlen _].
  - by repeat constructor.
  - vm_compute in Hlen. discriminate.
Qed.

Lemma concurrent_single_construction_witness :
  (nsteps step 1 sample.three_threads
     (sample.building, [AtCallOnce; InCtor; AtCallOnce]) ∧
   thread_step sample.building (@AtCallOnce sample.error) = None ∧
   [AtCallOnce; InCtor; AtCallOnce] !! 0 = Some (@AtCallOnce sample.error)) ∧
  (nsteps step 8 sample.three_threads
     (sample.built, replicate 3 (Finished (Ok 1%positive))) ∧
   8 ≤ 2 * 3 + 2 ∧
   value (init (Lazy_of sample.make_counter) sample.w0) =
     (Ok 1%positive, sample.built) ∧
   value sample.built = (Ok 1%positive, sample.built)).
Proof.
  assert (nsteps step 1 sample.three_threads
            (sample.building, [AtCallOnce; InCtor; AtCallOnce])) as H1.
  { apply (exec_nsteps [1]). reflexivity. }
  assert (nsteps step 8 sample.three_threads
            (sample.built, replicate 3 (Finished (Ok 1%positive)))) as H8.
  { apply (exec_nsteps sample.schedule). reflexivity. }
  split.
  - destruct (concurrent_single_construction sample.make_counter sample.w0
                3 1 sample.building [AtCallOnce; InCtor; AtCallOnce]
                1%positive (sample.make_counter sample.w0).2 1 0
                InCtor AtCallOnce ltac:(lia) H1)
      as (_ & Hexcl & Hgood).
    destruct (Hexcl eq_refl eq_refl) as [Hblocked Hnone].
    pose proof (Hnone ltac:(lia) eq_refl) as _.
    destruct (Hgood eq_refl) as (_ & _ & _ & Hwait & _).
    split; [exact H1|]. split; [exact Hblocked|].
    apply (Hwait eq_refl eq_refl); lia.
  - destruct (concurrent_single_construction sample.make_counter sample.w0
                3 8 sample.built (replicate 3 (Finished (Ok 1%positive)))
                1%positive (sample.make_counter sample.w0).2 0 0
                (Finished (Ok 1%positive)) (Finished (Ok 1%positive))
                ltac:(lia) H8)
      as (_ & _ & Hgood).
    destruct (Hgood eq_refl) as (Hk & _ & _ & _ & Hseen).
    destruct (Hseen eq_refl eq_refl) as (Hseq & Hagain & _).
    split; [exact H8|]. split; [exact Hk|]. split; [exact Hseq|exact Hagain].
Defined.

Lemma value_created_lifecycle_witness :
  (value_created (init (Lazy_of sample.flaky) sample.w0)).1 = Ok false ∧
  (run [CallValueCreated; Elsewhere (λ w, w); CallValueCreated]
     (init (Lazy_of sample.flaky) sample.w0)).1 !! 2
    = Some (ObsCreated (Ok false)) ∧
  (run sample.probe (init (Lazy_of sample.flaky) sample.w0)).1 !! 3 =
    Some (ObsValue (Ok 1%positive)) ∧
  (run sample.probe (init (Lazy_of sample.flaky) sample.w0)).1 !! 4 =
    Some (ObsCreated (Ok true)) ∧
  (value_created
     (run [CallValue] (run sample.probe (init (Lazy_of sample.flaky) sample.w0)).2).2).1
    = Ok true.
Proof.
  destruct (value_created_lifecycle sample.flaky sample.w0 sample.probe [CallValue]
              3 4 (ObsValue (Ok 1%positive)) (Ok true))
    as (Hfresh & _ & Hafter & Hkeep).
  destruct (value_created_lifecycle sample.flaky sample.w0
              [CallValueCreated; Elsewhere (λ w, w); CallValueCreated] []
              0 2 (ObsCreated (Ok false)) (Ok false))
    as (_ & Hbefore & _).
  pose proof (Hbefore eq_refl eq_refl) as _.
  pose proof (Hafter ltac:(lia) eq_refl eq_refl eq_refl) as _.
  destruct Hkeep as [_ Htrue]; [by vm_compute|].
  split; [exact Hfresh|]. split; [reflexivity|]. split; [reflexivity|].
  split; [reflexivity|exact Htrue].
Defined.

Lemma default_factory_value_witness :
  default_ctor (T:=sample.Counter) sample.w0 = (Returned 0, sample.w0) ∧
  (value (init Lazy_default sample.w0)).1 = Ok 1%positive ∧
  heap (world (value (init Lazy_default sample.w0)).2) !! 1%positive = Some 0.
Proof.
  destruct (default_factory_value (exn:=sample.error) sample.w0 0 sample.w0 eq_refl)
    as (Href & _ & Hobj & _).
  split; [reflexivity|]. split; [exact Href|exact Hobj].
Defined.

Lemma factory_failure_propagates_witness :
  flag_ (self (init (Lazy_of sample.always_throws) sample.w0)) = Idle ∧
  (value (init (Lazy_of sample.always_throws) sample.w0)).1 = Throw 7.
Proof.
  destruct (factory_failure_propagates
              (init (Lazy_of sample.always_throws) sample.w0) 7
              (sample.always_throws sample.w0).2 eq_refl eq_refl) as [Hthrow _].
  split; [reflexivity|exact Hthrow].
Defined.

Lemma factory_failure_retry_witness :
  (value (init (Lazy_of sample.flaky) sample.w0)).1 = Throw 7 ∧
  (value_created (value (init (Lazy_of sample.flaky) sample.w0)).2).1 = Ok false ∧
  invoked (value (upd_world (λ w, w)
                    (value (init (Lazy_of sample.flaky) sample.w0)).2)).2 =
    [Raised 7; Returned (Some 1%positive)].
Proof.
  destruct (factory_failure_retry sample.flaky sample.w0 [] 7 (λ w, w) eq_refl)
    as (_ & _ & Hcreated & Hagain).
  split; [reflexivity|]. split; [exact Hcreated|].
  etrans; [exact Hagain|reflexivity].
Defined.

Lemma creator_nonnull_precondition_witness :
  (value (init (Lazy_of sample.make_counter) sample.w0)).1 = Ok 1%positive ∧
  world (value (init (Lazy_of sample.make_counter) sample.w0)).2 =
    (sample.make_counter sample.w0).2 ∧
  (value (init (Lazy_of sample.returns_null) sample.w0)).1 = Undefined.
Proof.
  pose proof (creator_nonnull_precondition sample.make_counter sample.w0 []
                (Some 1%positive) (sample.make_counter sample.w0).2
                eq_refl eq_refl) as Hvalid.
  pose proof (creator_nonnull_precondition sample.returns_null sample.w0 []
                None sample.w0 eq_refl eq_refl) as Hnull.
  simpl in Hvalid, Hnull.
  split; [by rewrite Hvalid|]. split; [by rewrite Hvalid|exact Hnull].
Defined.

(** ** The further properties at the sample instances *)

Lemma never_accessed_never_constructed_witness :
  invoked
    (run [CallValueCreated; Elsewhere (λ w, {| heap := heap w; env := 4 |});
          CallValueCreated]
       (init (Lazy_of sample.make_counter) sample.w0)).2 = [] ∧
  destroy_Lazy sample.drop_guard sample.marking_dtor
    (run [CallValueCreated; Elsewhere (λ w, {| heap := heap w; env := 4 |});
          CallValueCreated]
       (init (Lazy_of sample.make_counter) sample.w0)).2 =
    (Ok (), init (Lazy_of sample.make_counter) {| heap := ∅; env := 77 |}).
Proof.
  destruct (never_accessed_never_constructed sample.make_counter sample.w0
              [CallValueCreated; Elsewhere (λ w, {| heap := heap w; env := 4 |});
               CallValueCreated] sample.drop_guard sample.marking_dtor eq_refl)
    as [Hrun Hdestroy].
  split; [by rewrite Hrun|exact Hdestroy].
Defined.

Lemma settled_calls_keep_world_witness :
  world (run [CallValue; CallValueCreated; CallValue]
           (value (init (Lazy_of sample.make_counter) sample.w0)).2).2 =
    (sample.make_counter sample.w0).2.
Proof.
  exact (settled_calls_keep_world
           (init (Lazy_of sample.make_counter) sample.w0) 1%positive
           [CallValue; CallValueCreated; CallValue] eq_refl).
Defined.

Lemma null_creator_no_retry_witness :
  (value (init (Lazy_of sample.returns_null) sample.w0)).1 = Undefined ∧
  invoked (value (value (init (Lazy_of sample.returns_null) sample.w0)).2).2 =
    [Returned None].
Proof.
  destruct (null_creator_no_retry sample.returns_null sample.w0 [] sample.w0
              (λ w, w) eq_refl eq_refl) as (Hfirst & _ & _ & Hagain).
  split; [exact Hfirst|]. exact (f_equal (λ x, invoked x.2) Hagain).
Defined.

Lemma destroy_frees_held_object_witness :
  (value (init (Lazy_of sample.make_counter) sample.w5)).1 = Ok 6%positive ∧
  world (destroy_Lazy sample.drop_guard sample.marking_dtor
           (value (init (Lazy_of sample.make_counter) sample.w5)).2).2 =
    {| heap := {[5%positive := 40]}; env := 99 |}.
Proof.
  pose proof (destroy_frees_held_object
                (init (Lazy_of sample.make_counter) sample.w5)
                6%positive sample.drop_guard sample.marking_dtor eq_refl)
    as Hdestroy.
  split; [reflexivity|].
  change (heap (sample.drop_guard
                  (world (value (init (Lazy_of sample.make_counter) sample.w5)).2))
            !! 6%positive) with (Some 0) in Hdestroy.
  destruct Hdestroy as [Hdestroy _]. rewrite Hdestroy. reflexivity.
Defined.

Lemma default_value_destroy_roundtrip_witness :
  world (destroy_Lazy (λ w, w) sample.quiet_dtor
           (value (init Lazy_default sample.w5)).2).2 = sample.w5.
Proof.
  exact (f_equal (λ x, world x.2)
           (default_value_destroy_roundtrip (exn:=sample.error)
              sample.w5 0 sample.w5 (λ w, w) sample.quiet_dtor
              eq_refl eq_refl eq_refl)).
Defined.

Lemma default_constructor_failure_witness :
  (value (init (@Lazy_default _ _ _ sample.Counter_throwing) sample.w0)).1 =
    Throw 9.
Proof.
  rewrite (default_constructor_failure
             (DefaultConstructible0:=sample.Counter_throwing)
             sample.w0 9 sample.w0 eq_refl).
  reflexivity.
Defined.


Lemma concurrent_calls_agree_witness :
  returned_part (invoked sample.built) = [Returned (Some 1%positive)] ∧
  Raised 7 ∈ invoked sample.all_failed.
Proof.
  assert (nsteps step 8 sample.three_threads
            (sample.built, replicate 3 (Finished (Ok 1%positive)))) as Hgood.
  { apply (exec_nsteps sample.schedule). reflexivity. }
  assert (nsteps step 6 sample.three_unlucky_threads
            (sample.all_failed, replicate 3 (Finished (Throw 7)))) as Hbad.
  { apply (exec_nsteps sample.unlucky_schedule). reflexivity. }
  destruct (concurrent_calls_agree _ _ _ _ _ _ 0 2 (Ok 1%positive)
              (Ok 1%positive) 7 Hgood) as [Hsame _].
  destruct (Hsame eq_refl eq_refl eq_refl eq_refl) as (_ & _ & Hlog).
  destruct (concurrent_calls_agree _ _ _ _ _ _ 0 0 (Throw 7)
              (Throw 7) 7 Hbad) as [_ Hthrown].
  split; [exact Hlog|exact (Hthrown eq_refl)].
Defined.

Lemma concurrent_invocation_count_witness :
  length (invoked sample.all_failed) = 3 ∧
  length (invoked sample.all_failed) ≤ 3.
Proof.
  assert (nsteps step 6 sample.three_unlucky_threads
            (sample.all_failed, replicate 3 (Finished (Throw 7)))) as Hbad.
  { apply (exec_nsteps sample.unlucky_schedule). reflexivity. }
  destruct (concurrent_invocation_count _ _ _ _ _ _ Hbad) as (_ & Hcount & Hle).
  split; [exact Hcount|exact Hle].
Defined.

Lemma settled_threads_never_wait_witness :
  nsteps step 6 sample.three_late_threads
    (sample.built, replicate 3 (Finished (Ok 1%positive))) ∧
  6 ≤ 2 * 3.
Proof.
  assert (nsteps step 6 sample.three_late_threads
            (sample.built, replicate 3 (Finished (Ok 1%positive)))) as Hrun.
  { apply (exec_nsteps sample.late_schedule). reflexivity. }
  destruct (settled_threads_never_wait sample.built 1%positive 3 6 sample.built
              (replicate 3 (Finished (Ok 1%positive))) 0
              (Finished (Ok 1%positive)) eq_refl eq_refl Hrun)
    as (_ & Hk & Hnext).
  pose proof (Hnext eq_refl) as _.
  split; [exact Hrun|exact Hk].
Defined.

End kbase.
